(** * Verification of the ingestion pipeline of eip-docs-agent

    Shallow embedding of [src/app/ingest.py]: the sliding-window chunker
    ([sliding_window]), the per-record chunker ([chunk_documents]) and the
    repository reader with branch fallback ([read_repo_data]), followed by
    the properties the specification states about them. *)

From Stdlib Require Import ZArith String Ascii List Lia Bool.
From stdpp Require Import base option list sorting gmap strings.

Set Warnings "-register-all".

Open Scope string_scope.
Open Scope list_scope.
Open Scope Z_scope.

(** ** Python values, exceptions, results *)

(** The values a record field can hold: front matter yields strings,
    numbers, dates, lists and nulls; [content] is a [str]. *)
Inductive value :=
  | VNone
  | VInt (z : Z)
  | VStr (s : string)
  | VDate (iso : string)
  | VList (items : list value).

(** A Python [dict] with string keys. *)
Abbreviation dict := (gmap string value).

(** Exceptions.  [RuntimeError] keeps the two fields interpolated into the
    message of [read_repo_data] apart instead of rendering them to text;
    [External] stands for whatever [requests], [zipfile] and [frontmatter]
    raise (all of them subclasses of [Exception]). *)
Inductive exn :=
  | ValueError (msg : string)
  | TypeError (msg : string)
  | AttributeError (msg : string)
  | External (kind msg : string)
  | RuntimeError (branches : list string) (last_err : option exn).

Inductive result (A : Type) :=
  | Ok (a : A)
  | Raise (e : exn).
Arguments Ok {A} a.
Arguments Raise {A} e.

Definition rbind {A B} (r : result A) (k : A -> result B) : result B :=
  match r with
  | Ok a => k a
  | Raise e => Raise e
  end.

(** ** Sequences: [len] and slicing *)

(** [len(v)]: defined on [str] and [list], a [TypeError] elsewhere. *)
Definition py_len (v : value) : result Z :=
  match v with
  | VStr s => Ok (Z.of_nat (String.length s))
  | VList l => Ok (Z.of_nat (List.length l))
  | _ => Raise (TypeError "object has no len()")
  end.

(** [s[i:j]] on a [str], for [0 <= i] and [0 <= j] (the only bounds
    [sliding_window] produces): the characters from [i] up to [j], clipped at
    the end of [s]. *)
Definition str_slice (s : string) (i j : Z) : string :=
  String.substring (Z.to_nat i) (Z.to_nat (j - i)) s.

Definition list_slice {A} (l : list A) (i j : Z) : list A :=
  take (Z.to_nat (j - i)) (drop (Z.to_nat i) l).

(** [v[i:j]]; only reached after [len(v)] succeeded. *)
Definition py_slice (v : value) (i j : Z) : value :=
  match v with
  | VStr s => VStr (str_slice s i j)
  | VList l => VList (list_slice l i j)
  | _ => v
  end.

(** [range(start, stop, step)] for [step > 0]. *)
Definition range_len (start stop step : Z) : Z :=
  if start <? stop then 1 + (stop - 1 - start) / step else 0.

Definition py_range (start stop step : Z) : list Z :=
  (fun k => start + k * step) <$> seqZ 0 (range_len start stop step).

(** ** [sliding_window] *)

(** The body of [for i in range(0, n, step)]: build the chunk, append it,
    and leave the loop when [i + size > n]. *)
Fixpoint sliding_window_loop (text : value) (size n : Z) (offs : list Z)
    (out : list dict) : list dict :=
  match offs with
  | [] => out
  | i :: rest =>
      let batch := py_slice text i (i + size) in
      let out := out ++ [ {[ "start" := VInt i; "content" := batch ]} ] in
      if i + size >? n then out
      else sliding_window_loop text size n rest out
  end.

Definition sliding_window (text : value) (size step : Z) : result (list dict) :=
  if (size <=? 0) || (step <=? 0) then
    Raise (ValueError "size and step must be positive")
  else
    rbind (py_len text) (fun n =>
    Ok (sliding_window_loop text size n (py_range 0 n step) [])).

(** ** The store of caller-owned records *)

(** [chunk_documents] receives references to dicts the caller keeps using,
    so the records live in a store of objects and a [list[dict]] is a list
    of locations.  The dicts built inside [sliding_window] are reachable
    only through its return value and are carried as plain values. *)
Abbreviation loc := nat.
Abbreviation store := (list dict).

(** Computations over the store that may raise; the store survives a raise,
    as the heap of a Python program does. *)
Definition M (A : Type) : Type := store -> result A * store.

#[global] Instance M_ret : MRet M := fun A a h => (Ok a, h).

#[global] Instance M_bind : MBind M := fun A B k m h =>
  match m h with
  | (Ok a, h') => k a h'
  | (Raise e, h') => (Raise e, h')
  end.

Definition lift {A} (r : result A) : M A := fun h => (r, h).

(** [d.copy()]: a new object with the same items.  A list element that is
    not a dict has no such method; it is written as a location outside the
    store, and the lists considered name objects of the initial store. *)
Definition dict_copy (l : loc) : M loc := fun h =>
  match h !! l with
  | Some d => (Ok (List.length h), h ++ [d])
  | None => (Raise (AttributeError "copy"), h)
  end.

(** [d.pop(key, default)]: removes [key] from the object in place. *)
Definition dict_pop (l : loc) (key : string) (dflt : value) : M value := fun h =>
  match h !! l with
  | Some d => (Ok (default dflt (d !! key)), <[l := delete key d]> h)
  | None => (Raise (AttributeError "pop"), h)
  end.

(** Reading the items of an object, as the argument of [update] does. *)
Definition dict_items (l : loc) : M dict := fun h =>
  match h !! l with
  | Some d => (Ok d, h)
  | None => (Raise (AttributeError "keys"), h)
  end.

(** [ch.update(other)]: the items of [other] overwrite those of [ch]. *)
Definition dict_update (ch other : dict) : dict := other ∪ ch.

(** ** [chunk_documents] *)

(** The inner loop: [for ch in ...: ch.update(base); chunks.append(ch)]. *)
Fixpoint chunk_documents_inner (base : loc) (chs : list dict)
    (chunks : list dict) : M (list dict) :=
  match chs with
  | [] => mret chunks
  | ch :: rest =>
      b ← dict_items base;
      chunk_documents_inner base rest (chunks ++ [dict_update ch b])
  end.

(** The outer loop: [for doc in docs]. *)
Fixpoint chunk_documents_loop (docs : list loc) (size step : Z)
    (chunks : list dict) : M (list dict) :=
  match docs with
  | [] => mret chunks
  | doc :: rest =>
      base ← dict_copy doc;
      full ← dict_pop base "content" (VStr "");
      chs ← lift (sliding_window full size step);
      chunks ← chunk_documents_inner base chs chunks;
      chunk_documents_loop rest size step chunks
  end.

Definition chunk_documents (docs : list loc) (size step : Z) : M (list dict) :=
  chunk_documents_loop docs size step [].

(** ** String helpers of the extractor *)

(** [c.lower()] on the ASCII letters [A]-[Z]; every other character is
    left as it is, so this agrees with [str.lower] on ASCII names. *)
Definition lower_ascii (c : ascii) : ascii :=
  let n := nat_of_ascii c in
  if ((65 <=? n) && (n <=? 90))%nat then ascii_of_nat (n + 32) else c.

Fixpoint lower (s : string) : string :=
  match s with
  | EmptyString => EmptyString
  | String c s' => String (lower_ascii c) (lower s')
  end.

Definition startswith (s p : string) : bool := String.prefix p s.

Definition endswith (s p : string) : bool :=
  let n := String.length s in
  let m := String.length p in
  ((m <=? n)%nat && String.eqb (String.substring (n - m) m s) p).

(** [s.startswith(tuple)] and [s.endswith(tuple)]. *)
Definition startswith_any (s : string) (ps : list string) : bool :=
  existsb (startswith s) ps.

Definition endswith_any (s : string) (ps : list string) : bool :=
  existsb (endswith s) ps.

(** [name.split("/", 1)]: [None] when there is no separator (one part),
    otherwise the text before and after the first separator. *)
Definition split_once (name : string) : option (string * string) :=
  match String.index 0 "/" name with
  | Some i =>
      Some (String.substring 0 i name,
            String.substring (S i) (String.length name - S i) name)
  | None => None
  end.

(** ** External collaborators of [read_repo_data] *)

(** The reply of [requests.get]: what [raise_for_status] would raise, if
    anything, and the body. *)
Record response := {
  status_error : option exn;
  resp_content : string
}.

(** An archive member: its name and what reading it gives. *)
Record file_info := {
  filename : string;
  file_read : result string
}.

(** A parsed document: front matter and body. *)
Record post := {
  metadata : dict;
  post_content : string
}.

(** [post.to_dict()]: a copy of the metadata with the body under
    ["content"]. *)
Definition to_dict (p : post) : dict :=
  <["content" := VStr (post_content p)]> (metadata p).

(** The network seen by one run: the log of the URLs requested so far. *)
Definition world := list string.

Section ReadRepo.
(** What the network answers to a request, given the earlier requests. *)
Variable network : world -> string -> Z -> result response.
(** [zipfile.ZipFile(io.BytesIO(data)).infolist()] with the members'
    contents. *)
Variable zip_infolist : string -> result (list file_info).
(** [frontmatter.loads]. *)
Variable frontmatter_loads : string -> result post.

Variables repo_owner repo_name : string.
Variable branches : list string.
Variables include_exts include_prefixes : list string.
Variable timeout : Z.

Definition requests_get (url : string) (w : world)
    : result response * world :=
  (network w url timeout, w ++ [url]).

Definition branch_url (branch : string) : string :=
  String.append "https://codeload.github.com/"
    (String.append repo_owner (String.append "/"
      (String.append repo_name (String.append "/zip/refs/heads/" branch)))).

(** The record built for one parsed file. *)
Definition make_record (branch name path : string) (p : post) : dict :=
  let data := to_dict p in
  let data := <["content" := VStr (post_content p)]> data in
  let data := <["filename" := VStr name]> data in
  let data := <["path" := VStr path]> data in
  let data := <["repo_owner" := VStr repo_owner]> data in
  let data := <["repo_name" := VStr repo_name]> data in
  let data := <["branch" := VStr branch]> data in
  data.

(** [for file_info in zf.infolist()]. *)
Fixpoint extract (branch : string) (infos : list file_info)
    (docs : list dict) : result (list dict) :=
  match infos with
  | [] => Ok docs
  | fi :: rest =>
      let name := filename fi in
      let name_lower := lower name in
      if negb (endswith_any name_lower include_exts) then
        extract branch rest docs
      else
        match split_once name with
        | None => extract branch rest docs
        | Some (_, path) =>
            if negb (bool_decide (include_prefixes = []))
               && negb (startswith_any path include_prefixes) then
              extract branch rest docs
            else
              rbind (file_read fi) (fun raw =>
              rbind (frontmatter_loads raw) (fun p =>
              extract branch rest
                (docs ++ [make_record branch name path p])))
        end
  end.

(** The body of the [try]: download, open, extract. *)
Definition attempt (branch : string) (w : world)
    : result (list dict) * world :=
  match requests_get (branch_url branch) w with
  | (Raise e, w') => (Raise e, w')
  | (Ok resp, w') =>
      match status_error resp with
      | Some e => (Raise e, w')
      | None =>
          (rbind (zip_infolist (resp_content resp)) (fun infos =>
           extract branch infos []), w')
      end
  end.

(** [for branch in branches]: return on the first success, remember the
    error and go on otherwise. *)
Fixpoint read_repo_loop (todo : list string) (last_err : option exn)
    (w : world) : result (list dict * string) * world :=
  match todo with
  | [] => (Raise (RuntimeError branches last_err), w)
  | branch :: rest =>
      match attempt branch w with
      | (Ok docs, w') => (Ok (docs, branch), w')
      | (Raise e, w') => read_repo_loop rest (Some e) w'
      end
  end.

Definition read_repo_data (w : world)
    : result (list dict * string) * world :=
  read_repo_loop branches None w.

(** The candidates [bs], tried in turn from the world [w], all fail, with
    the errors [errs]. *)
Fixpoint all_fail (bs : list string) (errs : list exn) (w : world) : Prop :=
  match bs, errs with
  | [], [] => True
  | b :: bs', e :: errs' =>
      (attempt b w).1 = Raise e /\ all_fail bs' errs' (w ++ [branch_url b])
  | _, _ => False
  end.
End ReadRepo.

(** A small world for examples: the archive of branch [main] holds a file
    whose front matter does not parse, the archive of [master] is sound, and
    any other branch does not exist. *)
Module Demo.
Definition url_main : string :=
  "https://codeload.github.com/ethereum/EIPs/zip/refs/heads/main".
Definition url_master : string :=
  "https://codeload.github.com/ethereum/EIPs/zip/refs/heads/master".

Definition network (w : world) (url : string) (timeout : Z)
    : result response :=
  if String.eqb url url_main then
    Ok {| status_error := None; resp_content := "zip-main" |}
  else if String.eqb url url_master then
    Ok {| status_error := None; resp_content := "zip-master" |}
  else
    Ok {| status_error := Some (External "HTTPError" "404 Client Error");
          resp_content := "" |}.

Definition zip_infolist (data : string) : result (list file_info) :=
  if String.eqb data "zip-main" then
    Ok [ {| filename := "EIPs-main/EIPS/eip-1.md"; file_read := Ok "eip-1" |};
         {| filename := "EIPs-main/EIPS/eip-2.md"; file_read := Ok "broken" |};
         {| filename := "EIPs-main/EIPS/eip-20.md"; file_read := Ok "eip-20" |} ]
  else if String.eqb data "zip-master" then
    Ok [ {| filename := "EIPs-master/README.md"; file_read := Ok "readme" |};
         {| filename := "EIPs-master/EIPS/eip-20.md";
            file_read := Ok "eip-20" |} ]
  else Raise (External "BadZipFile" "File is not a zip file").

Definition frontmatter_loads (raw : string) : result post :=
  if String.eqb raw "eip-1" then
    Ok {| metadata := {[ "title" := VStr "EIP Purpose and Guidelines" ]};
          post_content := "What is an EIP?" |}
  else if String.eqb raw "eip-20" then
    Ok {| metadata := {[ "title" := VStr "Token Standard" ]};
          post_content := "A standard interface for tokens." |}
  else Raise (External "ScannerError" "mapping values are not allowed here").

Definition exts : list string := [".md"; ".mdx"].
Definition prefixes : list string := ["EIPS/"].

(** The members of the archive of [master], and the one record they
    give. *)
Definition master_members : list file_info :=
  [ {| filename := "EIPs-master/README.md"; file_read := Ok "readme" |};
    {| filename := "EIPs-master/EIPS/eip-20.md"; file_read := Ok "eip-20" |} ].

Definition master_docs : list dict :=
  [ make_record "ethereum" "EIPs" "master" "EIPs-master/EIPS/eip-20.md"
      "EIPS/eip-20.md"
      {| metadata := {[ "title" := VStr "Token Standard" ]};
         post_content := "A standard interface for tokens." |} ].

(** An index that just keeps what it is fitted on. *)
Definition index_fit (text_fields : list string) (docs : list dict)
    : result (list dict) :=
  Ok docs.
End Demo.

(** ** [index_data] *)

(** [chunk_documents(docs, **kw)]: [size] and [step] are taken from [kw]
    when present and default to 2000 and 1000; any other key is an
    unexpected keyword argument. *)
Definition chunk_documents_kwargs (docs : list loc) (kw : gmap string Z)
    : M (list dict) :=
  if decide (dom kw ⊆ ({[ "size"; "step" ]} : gset string)) then
    chunk_documents docs (default 2000 (kw !! "size"))
      (default 1000 (kw !! "step"))
  else
    fun h => (Raise (TypeError "unexpected keyword argument"), h).

Section IndexData.
Variable network : world -> string -> Z -> result response.
Variable zip_infolist : string -> result (list file_info).
Variable frontmatter_loads : string -> result post.
(** The search index is an external collaborator:
    [Index(text_fields=...).fit(docs)], which may raise. *)
Context {Index : Type}.
Variable index_fit : list string -> list dict -> result Index.

(** The records of [read_repo_data] are handed to [chunk_documents] as the
    objects of a store, in order. *)
Definition index_data (repo_owner repo_name : string) (branches : list string)
    (chunk : bool) (chunking_params : option (gmap string Z)) (w : world)
    : result (Index * string) * world :=
  match read_repo_data network zip_infolist frontmatter_loads repo_owner
          repo_name branches [".md"; ".mdx"] ["EIPS/"] 60 w with
  | (Raise e, w') => (Raise e, w')
  | (Ok (docs, branch), w') =>
      let chunked :=
        if chunk then
          let chunking_params :=
            default {[ "size" := 2000; "step" := 1000 ]} chunking_params in
          (chunk_documents_kwargs (seq 0 (List.length docs))
             chunking_params docs).1
        else Ok docs in
      (rbind chunked (fun docs =>
       rbind (index_fit ["content"; "path"; "filename"] docs) (fun index =>
       Ok (index, branch))), w')
  end.
End IndexData.

(** ** Auxiliary notions used in the statements *)

(** The repository path of an archive member that passes the three filters
    of [extract] (extension, two path segments, prefix), if it does. *)
Definition kept (include_exts include_prefixes : list string)
    (fi : file_info) : option string :=
  if negb (endswith_any (lower (filename fi)) include_exts) then None
  else
    match split_once (filename fi) with
    | None => None
    | Some (_, path) =>
        if negb (bool_decide (include_prefixes = []))
           && negb (startswith_any path include_prefixes) then None
        else Some path
    end.

(** The archive names and repository paths of the members that pass the
    filters, in archive order. *)
Definition kept_members (include_exts include_prefixes : list string)
    (infos : list file_info) : list (string * string) :=
  omap (fun fi => (fun path => (filename fi, path))
                    <$> kept include_exts include_prefixes fi) infos.

(** The keys [read_repo_data] sets on every record. *)
Definition reserved_keys : list string :=
  ["content"; "filename"; "path"; "repo_owner"; "repo_name"; "branch"].

(** What the collaborators make of one candidate branch, stated on the
    network, the archive reader and the parser alone. *)
Section Outcomes.
Variable network : world -> string -> Z -> result response.
Variable zip_infolist : string -> result (list file_info).
Variable frontmatter_loads : string -> result post.
Variables repo_owner repo_name : string.
Variables include_exts include_prefixes : list string.
Variable timeout : Z.

(** A member is harmless: if it passes the filters, it reads and parses. *)
Definition member_parses (fi : file_info) : Prop :=
  is_Some (kept include_exts include_prefixes fi) ->
  exists raw p, file_read fi = Ok raw /\ frontmatter_loads raw = Ok p.

(** [docs] are the records of the archive [infos]: one per member that
    passes the filters, in archive order, built from that member's parse
    and carrying [branch]. *)
Definition archive_records (branch : string) (infos : list file_info)
    (docs : list dict) : Prop :=
  Forall2 (fun (m : file_info * string) (d : dict) =>
    exists raw p, file_read m.1 = Ok raw /\ frontmatter_loads raw = Ok p /\
      d = make_record repo_owner repo_name branch (filename m.1) m.2 p)
    (omap (fun fi => (fun path => (fi, path))
                       <$> kept include_exts include_prefixes fi) infos)
    docs.

(** The fetch of [branch] in the world [w] fails with [e]: the request
    raises, or the reply has an error status, or the archive does not open,
    or a member that passes the filters cannot be read or parsed (the first
    such member deciding the error). *)
Inductive fetch_fails (branch : string) (w : world) (e : exn) : Prop :=
  | fails_request :
      network w (branch_url repo_owner repo_name branch) timeout = Raise e ->
      fetch_fails branch w e
  | fails_status resp :
      network w (branch_url repo_owner repo_name branch) timeout = Ok resp ->
      status_error resp = Some e ->
      fetch_fails branch w e
  | fails_archive resp :
      network w (branch_url repo_owner repo_name branch) timeout = Ok resp ->
      status_error resp = None ->
      zip_infolist (resp_content resp) = Raise e ->
      fetch_fails branch w e
  | fails_member resp pre fi post path :
      network w (branch_url repo_owner repo_name branch) timeout = Ok resp ->
      status_error resp = None ->
      zip_infolist (resp_content resp) = Ok (pre ++ fi :: post) ->
      Forall member_parses pre ->
      kept include_exts include_prefixes fi = Some path ->
      (file_read fi = Raise e \/
       exists raw, file_read fi = Ok raw /\ frontmatter_loads raw = Raise e) ->
      fetch_fails branch w e.

(** The fetch of [branch] in the world [w] succeeds with [docs]: the
    request is answered without error status, the archive opens, and [docs]
    are its records. *)
Inductive fetch_succeeds (branch : string) (w : world) (docs : list dict)
    : Prop :=
  | succeeds resp infos :
      network w (branch_url repo_owner repo_name branch) timeout = Ok resp ->
      status_error resp = None ->
      zip_infolist (resp_content resp) = Ok infos ->
      archive_records branch infos docs ->
      fetch_succeeds branch w docs.

(** The candidates [bs], fetched one after the other from the world [w],
    all fail, with the errors [errs] in that order. *)
Fixpoint candidates_fail (bs : list string) (errs : list exn) (w : world)
    : Prop :=
  match bs, errs with
  | [], [] => True
  | b :: bs', e :: errs' =>
      fetch_fails b w e /\
      candidates_fail bs' errs' (w ++ [branch_url repo_owner repo_name b])
  | _, _ => False
  end.
End Outcomes.


(** The dict [sliding_window] builds at offset [i]. *)
Definition chunk_at (text : value) (size i : Z) : dict :=
  {[ "start" := VInt i; "content" := py_slice text i (i + size) ]}.

(** The offsets at which the loop of [sliding_window] appends a chunk, when
    it walks [offs]: every offset up to and including the first one with
    [i + size > n]. *)
Fixpoint emitted (size n : Z) (offs : list Z) : list Z :=
  match offs with
  | [] => []
  | i :: rest => i :: (if i + size >? n then [] else emitted size n rest)
  end.

(** The chunks of one record [d], given the windows [chs] of its body:
    each window's dict updated with the record's fields other than
    ["content"]. *)
Definition record_chunks (d : dict) (chs : list dict) : list dict :=
  (fun ch => dict_update ch (delete "content" d)) <$> chs.

(** The body of a record as [chunk_documents] reads it:
    [pop("content", "")]. *)
Definition body (d : dict) : value := default (VStr "") (d !! "content").

(** The chunker as the specification words it: emit the window at the
    current offset, stop after the first window whose end reaches or exceeds
    the length of the text, otherwise advance by [step].  [fuel] bounds the
    number of windows. *)
Fixpoint spec_windows (fuel : nat) (text : value) (size step n offset : Z)
    : list dict :=
  match fuel with
  | O => []
  | S fuel' =>
      chunk_at text size offset ::
      (if offset + size >=? n then []
       else spec_windows fuel' text size step n (offset + step))
  end.

Definition spec_sliding_window (s : string) (size step : Z) : list dict :=
  spec_windows (S (String.length s)) (VStr s) size step
    (Z.of_nat (String.length s)) 0.

(** Length of a [str] as an integer. *)
Definition str_len (s : string) : Z := Z.of_nat (String.length s).

(* ================================================================== *)
(** * Properties *)

(** ** Slices and ranges *)

Lemma length_substring (s : string) (a m : nat) :
  String.length (String.substring a m s) = (m `min` (String.length s - a))%nat.
Proof.
  revert a m.
  induction s as [|c s IH]; intros [|a] [|m];
    cbn [String.substring String.length]; rewrite ?IH; clear; lia.
Qed.

Lemma str_slice_len (s : string) (i size : Z) :
  0 <= i -> 0 <= size ->
  str_len (str_slice s i (i + size)) = Z.max 0 (Z.min size (str_len s - i)).
Proof.
  intros Hi Hs. unfold str_len, str_slice.
  rewrite length_substring. replace (i + size - i) with size by lia. lia.
Qed.

Lemma range_len_step (i n step : Z) :
  0 < step -> i < n -> range_len i n step = 1 + range_len (i + step) n step.
Proof.
  intros Hstep Hlt. unfold range_len.
  rewrite (proj2 (Z.ltb_lt i n) Hlt).
  destruct (Z.ltb_spec (i + step) n) as [H|H].
  - replace (n - 1 - i) with ((n - 1 - (i + step)) + 1 * step) by lia.
    rewrite Z.div_add by lia. lia.
  - rewrite Z.div_small by lia. lia.
Qed.

Lemma range_len_nonneg (i n step : Z) : 0 < step -> 0 <= range_len i n step.
Proof.
  intros Hstep. unfold range_len. destruct (Z.ltb_spec i n); [|lia].
  assert (0 <= (n - 1 - i) / step) by (apply Z.div_pos; lia). lia.
Qed.

(** [range(i, n, step)] is [i] followed by [range(i + step, n, step)]. *)
Lemma py_range_unfold (i n step : Z) :
  0 < step ->
  py_range i n step = if i <? n then i :: py_range (i + step) n step else [].
Proof.
  intros Hstep. destruct (Z.ltb_spec i n) as [Hlt|Hge].
  - unfold py_range. rewrite range_len_step by done.
    pose proof (range_len_nonneg (i + step) n step Hstep) as Hnn.
    rewrite seqZ_cons by lia. rewrite fmap_cons. f_equal; [lia|].
    replace (Z.pred (1 + range_len (i + step) n step))
      with (range_len (i + step) n step) by lia.
    replace (Z.succ 0) with (1 + 0) by lia.
    rewrite <- fmap_add_seqZ, <- list_fmap_compose.
    apply list_fmap_ext. intros _ k _. simpl. lia.
  - unfold py_range, range_len. rewrite (proj2 (Z.ltb_ge i n) Hge). done.
Qed.

(** Induction along the offsets [i, i + step, ...] below [n]. *)
Lemma range_ind (P : Z -> Prop) (n step : Z) :
  0 < step ->
  (forall i, (i < n -> P (i + step)) -> P i) ->
  forall i, P i.
Proof.
  intros Hstep Hrec i.
  remember (Z.to_nat (n - i)) as k eqn:Hk.
  revert i Hk. induction (lt_wf k) as [k _ IH]. intros i ->.
  apply Hrec. intros Hlt. apply (IH (Z.to_nat (n - (i + step)))); [lia|done].
Qed.

(** ** The loop of [sliding_window] *)

Lemma sliding_window_loop_emitted (text : value) (size n : Z)
    (offs : list Z) (out : list dict) :
  sliding_window_loop text size n offs out
  = out ++ (chunk_at text size <$> emitted size n offs).
Proof.
  revert out. induction offs as [|i rest IH]; intros out; simpl.
  - by rewrite app_nil_r.
  - destruct (i + size >? n).
    + done.
    + rewrite IH, <- app_assoc. done.
Qed.

Lemma sliding_window_emitted (text : value) (size step n : Z) :
  0 < size -> 0 < step -> py_len text = Ok n ->
  sliding_window text size step
  = Ok (chunk_at text size <$> emitted size n (py_range 0 n step)).
Proof.
  intros Hsize Hstep Hlen. unfold sliding_window.
  rewrite (proj2 (Z.leb_gt size 0) Hsize), (proj2 (Z.leb_gt step 0) Hstep).
  simpl. rewrite Hlen. simpl.
  by rewrite sliding_window_loop_emitted.
Qed.

Section Offsets.
Variables size step n : Z.
Hypothesis Hstep : 0 < step.

(** The offsets emitted when the loop starts at [i]. *)
Local Abbreviation E i := (emitted size n (py_range i n step)).

Lemma emitted_unfold (i : Z) :
  E i = if i <? n
        then i :: (if i + size >? n then [] else E (i + step))
        else [].
Proof.
  rewrite (py_range_unfold i) by done.
  by destruct (i <? n).
Qed.

Lemma emitted_nil (i : Z) : n <= i -> E i = [].
Proof.
  intros H. rewrite emitted_unfold. by rewrite (proj2 (Z.ltb_ge i n) H).
Qed.

Lemma emitted_cons (i : Z) :
  i < n -> E i = i :: (if i + size >? n then [] else E (i + step)).
Proof.
  intros H. rewrite emitted_unfold. by rewrite (proj2 (Z.ltb_lt i n) H).
Qed.

(** Every emitted offset lies inside the text. *)
Lemma emitted_bounds (i : Z) : Forall (fun j => i <= j < n) (E i).
Proof.
  revert i. apply (range_ind _ n step Hstep). intros i IH.
  destruct (Z.lt_ge_cases i n) as [Hlt|Hge].
  - rewrite emitted_cons by done. constructor; [lia|].
    destruct (i + size >? n); [constructor|].
    eapply Forall_impl; [exact (IH Hlt)|]. simpl. lia.
  - rewrite emitted_nil by done. constructor.
Qed.

(** Offsets are emitted in strictly increasing order. *)
Lemma emitted_sorted (i : Z) : StronglySorted Z.lt (E i).
Proof.
  revert i. apply (range_ind _ n step Hstep). intros i IH.
  destruct (Z.lt_ge_cases i n) as [Hlt|Hge].
  - rewrite emitted_cons by done.
    destruct (i + size >? n); repeat constructor.
    + exact (IH Hlt).
    + eapply Forall_impl; [apply emitted_bounds|]. simpl. lia.
  - rewrite emitted_nil by done. constructor.
Qed.

(** Two neighbours are [step] apart, and the earlier one is a full
    window. *)
Lemma emitted_adjacent (i : Z) (k : nat) (j j' : Z) :
  E i !! k = Some j -> E i !! S k = Some j' ->
  j' = j + step /\ j + size <= n.
Proof.
  revert i k. apply (range_ind (fun i => forall k, E i !! k = Some j ->
    E i !! S k = Some j' -> j' = j + step /\ j + size <= n) n step Hstep).
  intros i IH k.
  destruct (Z.lt_ge_cases i n) as [Hlt|Hge].
  - rewrite emitted_cons by done.
    destruct (Z.gtb_spec (i + size) n) as [Hbrk|Hgo].
    { destruct k; simpl; intros; simplify_eq. }
    destruct k as [|k]; simpl.
    + intros [= ->] Hnext. split; [|lia].
      destruct (Z.lt_ge_cases (j + step) n) as [Hlt'|Hge'].
      * rewrite emitted_cons in Hnext by done. by simplify_eq/=.
      * rewrite emitted_nil in Hnext by done. done.
    + apply IH. done.
  - rewrite emitted_nil by done. done.
Qed.

(** With [step <= size] every position from [i] on falls in a window. *)
Lemma emitted_cover (i p : Z) :
  step <= size -> i <= p < n ->
  exists j, j ∈ E i /\ j <= p < Z.min (j + size) n.
Proof.
  intros Hle. revert i. apply (range_ind (fun i => i <= p < n ->
    exists j, j ∈ E i /\ j <= p < Z.min (j + size) n) n step Hstep).
  intros i IH Hp. rewrite emitted_cons by lia.
  destruct (Z.lt_ge_cases p (i + size)) as [Hin|Hout].
  - exists i. split; [left|lia].
  - destruct (Z.gtb_spec (i + size) n) as [Hbrk|Hgo]; [lia|].
    destruct IH as (j & Hj & Hpj); [lia|lia|].
    exists j. split; [by right|done].
Qed.

(** With [step <= size] the last window reaches the end of the text. *)
Lemma emitted_last (i : Z) :
  step <= size -> i < n ->
  exists j, last (E i) = Some j /\ i <= j < n /\ n <= j + size.
Proof.
  intros Hle. revert i. apply (range_ind (fun i => i < n ->
    exists j, last (E i) = Some j /\ i <= j < n /\ n <= j + size)
    n step Hstep).
  intros i IH Hlt. rewrite emitted_cons by done.
  destruct (Z.gtb_spec (i + size) n) as [Hbrk|Hgo].
  { exists i. simpl. split; [done|lia]. }
  destruct (Z.lt_ge_cases (i + step) n) as [Hlt'|Hge'].
  - destruct IH as (j & Hj & Hb & Hend); [done|done|].
    exists j. split; [|lia].
    rewrite emitted_cons in Hj |- * by done. done.
  - rewrite emitted_nil by done. exists i. simpl. split; [done|lia].
Qed.
End Offsets.

(** ** The loops of [chunk_documents] *)

Lemma chunk_documents_inner_run (base : loc) (b : dict) (chs chunks : list dict)
    (h : store) :
  h !! base = Some b ->
  chunk_documents_inner base chs chunks h
  = (Ok (chunks ++ ((fun ch => dict_update ch b) <$> chs)), h).
Proof.
  intros Hb. revert chunks. induction chs as [|ch rest IH]; intros chunks.
  - simpl. by rewrite app_nil_r.
  - cbn [chunk_documents_inner]. unfold mbind, M_bind, dict_items at 1.
    rewrite Hb, IH, <- app_assoc. done.
Qed.

(** One iteration of the outer loop, when [doc] is a dict [d]: the copy
    without ["content"] is appended to the store, and the chunks of the body
    are merged with it. *)
Lemma chunk_documents_loop_step (doc : loc) (d : dict) (rest : list loc)
    (size step : Z) (chunks : list dict) (h : store) :
  h !! doc = Some d ->
  chunk_documents_loop (doc :: rest) size step chunks h
  = match sliding_window (body d) size step with
    | Ok chs =>
        chunk_documents_loop rest size step
          (chunks ++ ((fun ch => dict_update ch (delete "content" d)) <$> chs))
          (h ++ [delete "content" d])
    | Raise e => (Raise e, h ++ [delete "content" d])
    end.
Proof.
  intros Hd. cbn [chunk_documents_loop].
  unfold mbind, M_bind, dict_copy, dict_pop, lift.
  rewrite Hd. cbn beta iota. rewrite list_lookup_middle by done.
  replace (<[List.length h:=delete "content" d]> (h ++ [d]))
    with (h ++ [delete "content" d]).
  2:{ rewrite insert_app_r_alt by lia. by rewrite Nat.sub_diag. }
  destruct (sliding_window _ size step) as [chs|e]; [|done].
  rewrite (chunk_documents_inner_run _ (delete "content" d)).
  - done.
  - by apply list_lookup_middle.
Qed.

Lemma chunk_documents_loop_not_dict (doc : loc) (rest : list loc)
    (size step : Z) (chunks : list dict) (h : store) :
  h !! doc = None ->
  chunk_documents_loop (doc :: rest) size step chunks h
  = (Raise (AttributeError "copy"), h).
Proof.
  intros Hd. cbn [chunk_documents_loop]. unfold mbind, M_bind, dict_copy.
  by rewrite Hd.
Qed.

(** The store only grows: whatever the outcome, it ends as the initial
    store followed by new objects. *)
Lemma chunk_documents_loop_extends (docs : list loc) (size step : Z)
    (chunks : list dict) (h : store) :
  exists ext, (chunk_documents_loop docs size step chunks h).2 = h ++ ext.
Proof.
  revert chunks h. induction docs as [|doc rest IH]; intros chunks h.
  - exists []. simpl. by rewrite app_nil_r.
  - destruct (h !! doc) as [d|] eqn:Hd.
    + rewrite (chunk_documents_loop_step _ d) by done.
      destruct (sliding_window _ size step) as [chs|e].
      * edestruct IH as [ext ->]. rewrite <- app_assoc. by eexists.
      * by eexists.
    + rewrite chunk_documents_loop_not_dict by done.
      exists []. simpl. by rewrite app_nil_r.
Qed.

(** The run over records whose bodies all chunk successfully. *)
Lemma chunk_documents_loop_run (docs : list loc) (ds : list dict)
    (chss : list (list dict)) (size step : Z) (h : store) :
  Forall2 (fun l d => h !! l = Some d) docs ds ->
  Forall2 (fun d chs =>
    sliding_window (body d) size step = Ok chs) ds chss ->
  forall chunks ext,
  chunk_documents_loop docs size step chunks (h ++ ext)
  = (Ok (chunks ++ concat (zip_with record_chunks ds chss)),
     h ++ ext ++ (delete "content" <$> ds)).
Proof.
  intros Hdocs. revert chss.
  induction Hdocs as [|doc d docs ds Hd Hdocs IH]; intros chss Hchs chunks ext.
  - apply Forall2_nil_inv_l in Hchs as ->. simpl. by rewrite !app_nil_r.
  - apply Forall2_cons_inv_l in Hchs as (chs & chss' & Hch & Hchs & ->).
    rewrite (chunk_documents_loop_step _ d) by by apply lookup_app_l_Some.
    rewrite Hch, <- app_assoc, (IH _ Hchs). simpl.
    by rewrite <- !app_assoc.
Qed.

Lemma chunk_documents_run (docs : list loc) (ds : list dict)
    (chss : list (list dict)) (size step : Z) (h : store) :
  Forall2 (fun l d => h !! l = Some d) docs ds ->
  Forall2 (fun d chs =>
    sliding_window (body d) size step = Ok chs) ds chss ->
  chunk_documents docs size step h
  = (Ok (concat (zip_with record_chunks ds chss)),
     h ++ (delete "content" <$> ds)).
Proof.
  intros Hdocs Hchs. unfold chunk_documents.
  pose proof (chunk_documents_loop_run docs ds chss size step h
                Hdocs Hchs [] []) as Hrun.
  by rewrite app_nil_r in Hrun.
Qed.

(* ================================================================== *)
(** * The chunker: [sliding_window] *)

(** C1, evaluated at a text whose third window ends exactly at the end of
    the text (20 characters, [size = 10], [step = 5]): the code appends a
    fourth window after it, where the algorithm of the specification stops
    after the third. *)
Theorem sliding_window_continues_after_exact_fit :
  str_len "Hello World Example!" = 10 + 10 /\
  sliding_window (VStr "Hello World Example!") 10 5
  = Ok [ {[ "start" := VInt 0; "content" := VStr "Hello Worl" ]};
         {[ "start" := VInt 5; "content" := VStr " World Exa" ]};
         {[ "start" := VInt 10; "content" := VStr "d Example!" ]};
         {[ "start" := VInt 15; "content" := VStr "mple!" ]} ] /\
  spec_sliding_window "Hello World Example!" 10 5
  = [ {[ "start" := VInt 0; "content" := VStr "Hello Worl" ]};
      {[ "start" := VInt 5; "content" := VStr " World Exa" ]};
      {[ "start" := VInt 10; "content" := VStr "d Example!" ]} ].
Proof. repeat split; vm_compute; reflexivity. Qed.

(** C5: a non-positive [size] or [step] makes [sliding_window] raise
    [ValueError], whatever the text, before its length is taken and without
    any chunk being produced. *)
Theorem sliding_window_rejects_nonpositive (text : value) (size step : Z) :
  size <= 0 \/ step <= 0 ->
  sliding_window text size step
  = Raise (ValueError "size and step must be positive").
Proof.
  intros H. unfold sliding_window.
  destruct (Z.leb_spec size 0), (Z.leb_spec step 0); simpl; try done; lia.
Qed.

Lemma sliding_window_rejects_nonpositive_witness :
  sliding_window (VStr "abc") 0 5
  = Raise (ValueError "size and step must be positive").
Proof. apply sliding_window_rejects_nonpositive. left. lia. Defined.

(** The three chunks the docstring example and the specification give for
    this call are not what the code returns: its windows at offsets 5 and
    10 start with the characters at those offsets. *)
Lemma sliding_window_example_as_specified_fails :
  sliding_window (VStr "Hello World Example") 10 5
  <> Ok [ {[ "start" := VInt 0; "content" := VStr "Hello Worl" ]};
          {[ "start" := VInt 5; "content" := VStr "World Exam" ]};
          {[ "start" := VInt 10; "content" := VStr "Example" ]} ].
Proof.
  intros H.
  assert (Hsnd : forall l, sliding_window (VStr "Hello World Example") 10 5
                           = Ok l ->
                 (l !! 1%nat) ≫= (fun c => c !! "content")
                 = Some (VStr " World Exa")).
  { intros l. vm_compute. intros [= <-]. reflexivity. }
  specialize (Hsnd _ H). vm_compute in Hsnd. discriminate Hsnd.
Qed.

(** C7, evaluated at the input of the docstring example: the code returns
    the contents [" World Exa"] and ["d Example"] at offsets 5 and 10, where
    the docstring and the claim state ["World Exam"] and ["Example"]. *)
Theorem sliding_window_example :
  sliding_window (VStr "Hello World Example") 10 5
  = Ok [ {[ "start" := VInt 0; "content" := VStr "Hello Worl" ]};
         {[ "start" := VInt 5; "content" := VStr " World Exa" ]};
         {[ "start" := VInt 10; "content" := VStr "d Example" ]} ].
Proof. vm_compute. reflexivity. Qed.

(** C2, as the specification gives it, fails when [step > size]: on
    ["abcd"] with [size = 2] and [step = 4] the only chunk is [(0, "ab")],
    so position 2 is in no chunk. *)
Lemma sliding_window_cover_fails_for_wide_step :
  ~ (exists chunks,
       sliding_window (VStr "abcd") 2 4 = Ok chunks /\
       forall p, 0 <= p < str_len "abcd" ->
         exists c j t, c ∈ chunks /\ c !! "start" = Some (VInt j) /\
                       c !! "content" = Some (VStr t) /\
                       j <= p < j + str_len t).
Proof.
  intros (chunks & Hrun & Hcov).
  assert (chunks = [ {[ "start" := VInt 0; "content" := VStr "ab" ]} ])
    as -> by (vm_compute in Hrun; by injection Hrun as <-).
  destruct (Hcov 2) as (c & j & t & Hc & Hj & Ht & Hp); [by vm_compute|].
  apply list_elem_of_singleton in Hc as ->.
  vm_compute in Hj, Ht. injection Hj as <-. injection Ht as <-.
  vm_compute in Hp. destruct Hp as [_ Hp]. discriminate Hp.
Qed.

(** C2, amended: for valid [size] and [step] the starts are strictly
    increasing and each chunk pairs an offset with the window of the text
    at that offset; the empty text gives no chunk; and for a non-empty text
    with [step <= size] the chunks cover every position, leave no gap
    between neighbours, and the last one ends at the end of the text. *)
Theorem sliding_window_cover (s : string) (size step : Z) :
  0 < size -> 0 < step ->
  exists offs : list Z,
    sliding_window (VStr s) size step
    = Ok ((fun j => {[ "start" := VInt j;
                       "content" := VStr (str_slice s j (j + size)) ]})
          <$> offs) /\
    StronglySorted Z.lt offs /\
    (s = "" -> offs = []) /\
    (s <> "" -> step <= size ->
       (forall p, 0 <= p < str_len s ->
          exists j, j ∈ offs /\
                    j <= p < j + str_len (str_slice s j (j + size))) /\
       (forall (k : nat) j j', offs !! k = Some j -> offs !! S k = Some j' ->
          j' <= j + str_len (str_slice s j (j + size))) /\
       (exists j, last offs = Some j /\
                  j + str_len (str_slice s j (j + size)) = str_len s)).
Proof.
  intros Hsize Hstep.
  exists (emitted size (str_len s) (py_range 0 (str_len s) step)).
  split; [|split; [|split]].
  - by rewrite (sliding_window_emitted _ _ _ (str_len s)).
  - by apply emitted_sorted.
  - intros ->. by rewrite emitted_nil.
  - intros Hne Hle.
    assert (0 < str_len s) as Hpos by (unfold str_len; destruct s; [done|simpl; lia]).
    split; [|split].
    + intros p Hp.
      destruct (emitted_cover size step (str_len s) Hstep 0 p Hle Hp)
        as (j & Hj & Hpj).
      pose proof (emitted_bounds size step (str_len s) Hstep 0) as Hb.
      rewrite Forall_forall in Hb. specialize (Hb _ Hj). simpl in Hb.
      exists j. split; [done|].
      rewrite str_slice_len by lia. lia.
    + intros k j j' Hk Hk'.
      destruct (emitted_adjacent size step (str_len s) Hstep 0 k j j' Hk Hk')
        as [-> Hfull].
      pose proof (emitted_bounds size step (str_len s) Hstep 0) as Hb.
      rewrite Forall_lookup in Hb. specialize (Hb _ _ Hk). simpl in Hb.
      rewrite str_slice_len by lia. lia.
    + destruct (emitted_last size step (str_len s) Hstep 0 Hle Hpos)
        as (j & Hj & Hb & Hend).
      exists j. split; [done|].
      rewrite str_slice_len by lia. lia.
Qed.

Lemma sliding_window_cover_witness :
  exists offs : list Z,
    sliding_window (VStr "0123456789") 4 3
    = Ok ((fun j => {[ "start" := VInt j;
                       "content" := VStr (str_slice "0123456789" j (j + 4)) ]})
          <$> offs) /\
    StronglySorted Z.lt offs /\
    ("0123456789" = "" -> offs = []) /\
    ("0123456789" <> "" -> 3 <= 4 ->
       (forall p, 0 <= p < str_len "0123456789" ->
          exists j, j ∈ offs /\
                    j <= p < j + str_len (str_slice "0123456789" j (j + 4))) /\
       (forall (k : nat) j j', offs !! k = Some j -> offs !! S k = Some j' ->
          j' <= j + str_len (str_slice "0123456789" j (j + 4))) /\
       (exists j, last offs = Some j /\
                  j + str_len (str_slice "0123456789" j (j + 4))
                  = str_len "0123456789")).
Proof. apply (sliding_window_cover "0123456789" 4 3); lia. Defined.

(** C3, as the specification gives it, fails: the empty text gives no
    chunk at all, not one empty chunk. *)
Lemma sliding_window_empty_text_one_chunk_fails :
  ~ (exists c, sliding_window (VStr "") 1 1 = Ok [c] /\
               c !! "start" = Some (VInt 0) /\
               c !! "content" = Some (VStr "")).
Proof. intros (c & H & _). vm_compute in H. discriminate H. Qed.

(** C3, amended: for valid [size] and [step] the empty text gives the
    empty list, and a record without a ["content"] field, which
    [chunk_documents] reads as the empty text, gives no chunk. *)
Theorem sliding_window_empty_text (size step : Z) :
  0 < size -> 0 < step ->
  sliding_window (VStr "") size step = Ok [] /\
  forall (h : store) (doc : loc) (d : dict),
    h !! doc = Some d -> d !! "content" = None ->
    chunk_documents [doc] size step h = (Ok [], h ++ [d]).
Proof.
  intros Hsize Hstep.
  assert (sliding_window (VStr "") size step = Ok []) as Hempty.
  { rewrite (sliding_window_emitted _ _ _ 0) by done.
    by rewrite (py_range_unfold 0 0 step). }
  split; [done|]. intros h doc d Hd Hnone.
  unfold chunk_documents. rewrite (chunk_documents_loop_step _ d) by done.
  unfold body. rewrite Hnone. simpl. rewrite Hempty. simpl.
  by rewrite delete_id.
Qed.

Lemma sliding_window_empty_text_witness :
  sliding_window (VStr "") 4 2 = Ok [] /\
  chunk_documents [0%nat] 4 2 [ {[ "path" := VStr "a.md" ]} ]
  = (Ok [], [ {[ "path" := VStr "a.md" ]}; {[ "path" := VStr "a.md" ]} ]).
Proof.
  destruct (sliding_window_empty_text 4 2) as [Hempty Hdoc]; [lia|lia|].
  split; [exact Hempty|].
  apply (Hdoc [ {[ "path" := VStr "a.md" ]} ] 0%nat); reflexivity.
Defined.

(* ================================================================== *)
(** * The per-record chunker: [chunk_documents] *)

(** ** Field lookups on a merged chunk *)

Lemma chunk_at_start (text : value) (size j : Z) :
  chunk_at text size j !! "start" = Some (VInt j).
Proof. unfold chunk_at. by simplify_map_eq. Qed.

Lemma chunk_at_content (text : value) (size j : Z) :
  chunk_at text size j !! "content" = Some (py_slice text j (j + size)).
Proof. unfold chunk_at. by simplify_map_eq. Qed.

(** The window keeps its own ["content"]: the copy of the record has
    none. *)
Lemma dict_update_content (ch d : dict) :
  dict_update ch (delete "content" d) !! "content" = ch !! "content".
Proof.
  unfold dict_update. rewrite lookup_union_r; [done|]. apply lookup_delete_eq.
Qed.

(** Every other field of the record overwrites the window's. *)
Lemma dict_update_field (ch d : dict) (k : string) (v : value) :
  k <> "content" -> d !! k = Some v ->
  dict_update ch (delete "content" d) !! k = Some v.
Proof.
  intros Hk Hv. unfold dict_update. apply lookup_union_Some_l.
  by rewrite lookup_delete_ne.
Qed.

(** A field the record lacks is read from the window. *)
Lemma dict_update_absent (ch d : dict) (k : string) :
  d !! k = None ->
  dict_update ch (delete "content" d) !! k = ch !! k.
Proof.
  intros Hk. unfold dict_update. rewrite lookup_union_r; [done|].
  destruct (decide (k = "content")) as [->|Hne].
  - apply lookup_delete_eq.
  - by rewrite lookup_delete_ne.
Qed.

Lemma sliding_window_total (text : value) (size step n : Z) :
  0 < size -> 0 < step -> py_len text = Ok n ->
  exists offs, StronglySorted Z.lt offs /\
    sliding_window text size step = Ok (chunk_at text size <$> offs).
Proof.
  intros Hsize Hstep Hn. eexists. split; [|by apply sliding_window_emitted].
  by apply emitted_sorted.
Qed.

(** A record with its own ["start"] field passes that value to its chunks,
    so the first chunk does not carry its offset 0. *)
Lemma chunk_documents_start_collision_fails :
  ~ (exists chunks c,
       (chunk_documents [0%nat] 2 2
          [ {[ "content" := VStr "abcd"; "start" := VInt 7 ]} ]).1 = Ok chunks /\
       chunks !! 0%nat = Some c /\
       c !! "start" = Some (VInt 0)).
Proof.
  intros (chunks & c & Hrun & Hc & Hstart).
  vm_compute in Hrun. injection Hrun as <-.
  injection Hc as <-. vm_compute in Hstart. discriminate Hstart.
Qed.

(** C4, evaluated at a record with its own ["start"] field: both chunks
    come back with the record's [7] under ["start"], not with their offsets
    0 and 2, while ["content"] is each chunk's own window (the record's
    ["content"] having been popped from the copy before the merge). *)
Theorem chunk_documents_start_overwritten :
  (chunk_documents [0%nat] 2 2
     [ {[ "content" := VStr "abcd"; "start" := VInt 7 ]} ]).1
  = Ok [ {[ "start" := VInt 7; "content" := VStr "ab" ]};
         {[ "start" := VInt 7; "content" := VStr "cd" ]} ].
Proof. vm_compute. reflexivity. Qed.

(** How the merge [ch.update(base)] treats the two keys of a window, for
    any record: ["content"] stays the window's, ["start"] is the record's
    whenever the record has one. *)
Lemma chunk_documents_field_collision (h : store) (doc : loc) (d : dict)
    (size step : Z) (chs : list dict) :
  h !! doc = Some d ->
  sliding_window (body d) size step = Ok chs ->
  exists chunks,
    (chunk_documents [doc] size step h).1 = Ok chunks /\
    Forall2 (fun ch c : dict =>
      c !! "content" = ch !! "content" /\
      c !! "start" = match d !! "start" with
                     | Some v => Some v
                     | None => ch !! "start"
                     end) chs chunks.
Proof.
  intros Hd Hchs. exists (record_chunks d chs). split.
  - rewrite (chunk_documents_run [doc] [d] [chs])
      by by repeat constructor.
    simpl. by rewrite app_nil_r.
  - unfold record_chunks. apply Forall2_fmap_r, Forall_Forall2_diag.
    apply Forall_forall. intros ch _. split.
    + apply dict_update_content.
    + destruct (d !! "start") as [v|] eqn:Hs.
      * by apply dict_update_field.
      * by apply dict_update_absent.
Qed.

(** ** Metadata, ordering, and the caller's records *)

(** The chunks of one record: fields kept, and offsets as starts when the
    record has no ["start"] of its own. *)
Lemma record_chunks_fields (d : dict) (text : value) (size : Z)
    (offs : list Z) :
  let g := record_chunks d (chunk_at text size <$> offs) in
  (forall c k v, c ∈ g -> k <> "content" -> d !! k = Some v ->
                 c !! k = Some v) /\
  (d !! "start" = None ->
     (fun c : dict => c !! "start") <$> g
     = (fun j => Some (VInt j)) <$> offs).
Proof.
  simpl. unfold record_chunks. split.
  - intros c k v Hc Hk Hv.
    apply list_elem_of_fmap in Hc as (ch & -> & _).
    by apply dict_update_field.
  - intros Hnone. rewrite <- !list_fmap_compose.
    apply list_fmap_ext. intros _ j _. simpl.
    by rewrite dict_update_absent, chunk_at_start.
Qed.

(** The two chunks of a record that has its own ["start"] field both carry
    that value, so their starts are not increasing. *)
Lemma chunk_documents_start_order_fails :
  ~ (exists c1 c2 z1 z2,
       (chunk_documents [0%nat] 2 2
          [ {[ "content" := VStr "abcd"; "start" := VInt 7 ]} ]).1
       = Ok [c1; c2] /\
       c1 !! "start" = Some (VInt z1) /\
       c2 !! "start" = Some (VInt z2) /\
       z1 < z2).
Proof.
  intros (c1 & c2 & z1 & z2 & Hrun & H1 & H2 & Hlt).
  vm_compute in Hrun. injection Hrun as <- <-.
  vm_compute in H1, H2. injection H1 as <-. injection H2 as <-. lia.
Qed.

(** C6, evaluated at two records, the first with its own ["start"]
    field: the chunks of the first record come before the chunk of the
    second and every other field is kept, but the two chunks of the first
    record both have start [7], where the claim has them increase with the
    offsets 0 and 2. *)
Theorem chunk_documents_starts_not_increasing :
  (chunk_documents [0%nat; 1%nat] 2 2
     [ {[ "content" := VStr "abcd"; "start" := VInt 7;
          "path" := VStr "a.md" ]};
       {[ "content" := VStr "xy"; "path" := VStr "b.md" ]} ]).1
  = Ok [ {[ "start" := VInt 7; "content" := VStr "ab";
            "path" := VStr "a.md" ]};
         {[ "start" := VInt 7; "content" := VStr "cd";
            "path" := VStr "a.md" ]};
         {[ "start" := VInt 0; "content" := VStr "xy";
            "path" := VStr "b.md" ]} ].
Proof. vm_compute. reflexivity. Qed.

(** The general shape of the output, for valid [size] and [step] and
    records whose body is a sequence: one group of chunks per record, in
    record order; the record's fields other than ["content"] on each chunk
    of its group; offsets as starts for a record without a ["start"] of its
    own. *)
Lemma chunk_documents_preserves (docs : list loc) (ds : list dict)
    (size step : Z) (h : store) :
  0 < size -> 0 < step ->
  Forall2 (fun l d => h !! l = Some d) docs ds ->
  Forall (fun d => exists n, py_len (body d) = Ok n) ds ->
  exists groups : list (list dict),
    (chunk_documents docs size step h).1 = Ok (concat groups) /\
    Forall2 (fun (d : dict) (g : list dict) =>
      (exists chs, sliding_window (body d) size step = Ok chs /\
                   g = record_chunks d chs) /\
      (forall c k v, c ∈ g -> k <> "content" -> d !! k = Some v ->
                     c !! k = Some v) /\
      (d !! "start" = None ->
         exists offs, StronglySorted Z.lt offs /\
           (fun c : dict => c !! "start") <$> g
           = (fun j => Some (VInt j)) <$> offs)) ds groups.
Proof.
  intros Hsize Hstep Hdocs Hseq.
  assert (exists chss,
    Forall2 (fun d chs => sliding_window (body d) size step = Ok chs)
      ds chss /\
    Forall2 (fun d chs => exists offs, StronglySorted Z.lt offs /\
      chs = chunk_at (body d) size <$> offs) ds chss) as (chss & Hrun & Hoffs).
  { clear Hdocs. induction Hseq as [|d ds [n Hn] _ (chss & H1 & H2)].
    - exists []. split; constructor.
    - destruct (sliding_window_total _ size step n Hsize Hstep Hn)
        as (offs & Hsorted & Hsw).
      exists ((chunk_at (body d) size <$> offs) :: chss).
      split; constructor; eauto. }
  exists (zip_with record_chunks ds chss). split.
  - by rewrite (chunk_documents_run docs ds chss).
  - clear Hdocs Hseq. revert Hoffs.
    induction Hrun as [|d chs ds chss Hsw Hrun IH]; intros Hoffs; simpl.
    + constructor.
    + apply Forall2_cons_1 in Hoffs
        as [(offs & Hsorted & ->) Hoffs].
      constructor; [|by apply IH].
      destruct (record_chunks_fields d (body d) size offs) as [Hkeep Hstart].
      split; [by eexists|]. split; [exact Hkeep|].
      intros Hnone. exists offs. split; [done|by apply Hstart].
Qed.

(** C10: whatever [chunk_documents] returns or raises, every object that
    was in the store before the call, the input records among them, holds
    the same items after it, ["content"] included. *)
Theorem chunk_documents_leaves_input_unchanged (docs : list loc)
    (size step : Z) (h : store) (l : loc) (d : dict) :
  h !! l = Some d ->
  (chunk_documents docs size step h).2 !! l = Some d.
Proof.
  intros Hl. unfold chunk_documents.
  destruct (chunk_documents_loop_extends docs size step [] h) as [ext ->].
  by apply lookup_app_l_Some.
Qed.

Lemma chunk_documents_leaves_input_unchanged_witness :
  (chunk_documents [0%nat] 4 4
     [ {[ "content" := VStr "0123456789"; "path" := VStr "a.md" ]} ]).2
    !! 0%nat
  = Some {[ "content" := VStr "0123456789"; "path" := VStr "a.md" ]}.
Proof.
  apply (chunk_documents_leaves_input_unchanged [0%nat] 4 4
           [ {[ "content" := VStr "0123456789"; "path" := VStr "a.md" ]} ]).
  reflexivity.
Defined.

(* ================================================================== *)
(** * The repository reader: [read_repo_data] *)

Section ReadRepoProps.
Variable network : world -> string -> Z -> result response.
Variable zip_infolist : string -> result (list file_info).
Variable frontmatter_loads : string -> result post.
Variables repo_owner repo_name : string.
Variable branches : list string.
Variables include_exts include_prefixes : list string.
Variable timeout : Z.

Local Abbreviation url := (branch_url repo_owner repo_name).
Local Abbreviation extract' :=
  (extract frontmatter_loads repo_owner repo_name include_exts
     include_prefixes).
Local Abbreviation attempt' :=
  (attempt network zip_infolist frontmatter_loads repo_owner repo_name
     include_exts include_prefixes timeout).
Local Abbreviation loop' :=
  (read_repo_loop network zip_infolist frontmatter_loads repo_owner
     repo_name branches include_exts include_prefixes timeout).
Local Abbreviation all_fail' :=
  (all_fail network zip_infolist frontmatter_loads repo_owner repo_name
     include_exts include_prefixes timeout).

(** Every attempt makes exactly one request. *)
Lemma attempt_world (branch : string) (w : world) :
  (attempt' branch w).2 = w ++ [url branch].
Proof.
  unfold attempt, requests_get.
  destruct (network w _ timeout) as [resp|e]; [|done].
  by destruct (status_error resp).
Qed.

(** Every record of a pass carries the branch of that pass. *)
Lemma extract_branch (branch : string) (infos : list file_info)
    (docs0 docs : list dict) :
  Forall (fun d : dict => d !! "branch" = Some (VStr branch)) docs0 ->
  extract' branch infos docs0 = Ok docs ->
  Forall (fun d : dict => d !! "branch" = Some (VStr branch)) docs.
Proof.
  revert docs0. induction infos as [|fi rest IH]; intros docs0 H0; simpl.
  - by intros [= <-].
  - destruct (negb (endswith_any _ include_exts)); [by apply IH|].
    destruct (split_once (filename fi)) as [[top path]|]; [|by apply IH].
    destruct (negb (bool_decide (include_prefixes = [])) && _);
      [by apply IH|].
    destruct (file_read fi) as [raw|e]; [|done]. simpl.
    destruct (frontmatter_loads raw) as [p|e]; [|done]. simpl.
    apply IH. apply Forall_app. split; [done|].
    constructor; [|constructor].
    unfold make_record. apply lookup_insert_eq.
Qed.

Lemma attempt_branch (branch : string) (w : world) (docs : list dict) :
  (attempt' branch w).1 = Ok docs ->
  Forall (fun d : dict => d !! "branch" = Some (VStr branch)) docs.
Proof.
  unfold attempt, requests_get.
  destruct (network w _ timeout) as [resp|e]; [|done].
  destruct (status_error resp); [done|]. simpl.
  destruct (zip_infolist _) as [infos|e]; [|done]. simpl.
  by apply extract_branch.
Qed.

(** The loop over the candidates [todo], entered with [last_err] in the
    world [w]: either some candidate succeeds after all earlier ones
    failed, and nothing is requested after it; or all fail, each having
    been requested once, and the error names the last failure. *)
Lemma read_repo_loop_spec (todo : list string) (last_err : option exn)
    (w : world) :
  match loop' todo last_err w with
  | (Ok (docs, b), w') =>
      exists pre post errs,
        todo = pre ++ b :: post /\
        all_fail' pre errs w /\
        (attempt' b (w ++ (url <$> pre))).1 = Ok docs /\
        w' = w ++ (url <$> pre) ++ [url b]
  | (Raise e, w') =>
      exists errs,
        all_fail' todo errs w /\
        e = RuntimeError branches
              (match last errs with Some e' => Some e' | None => last_err end) /\
        w' = w ++ (url <$> todo)
  end.
Proof.
  revert last_err w. induction todo as [|b rest IH]; intros last_err w.
  - simpl. exists []. simpl. by rewrite app_nil_r.
  - cbn [read_repo_loop].
    pose proof (attempt_world b w) as Hw.
    destruct (attempt' b w) as [[docs|e] w1] eqn:Hatt; simpl in Hw; subst w1.
    + exists [], rest, []. simpl. rewrite app_nil_r, Hatt. done.
    + specialize (IH (Some e) (w ++ [url b])).
      destruct (loop' rest (Some e) (w ++ [url b])) as [[[docs b']|e'] w2].
      * destruct IH as (pre & post & errs & -> & Hfail & Hok & ->).
        exists (b :: pre), post, (e :: errs). simpl.
        rewrite Hatt. rewrite <- !app_assoc in *. simpl in *. done.
      * destruct IH as (errs & Hfail & -> & ->).
        exists (e :: errs). simpl. rewrite Hatt, <- app_assoc. simpl.
        split; [done|]. split; [|done].
        destruct errs as [|e0 errs]; [done|].
        change (last (e :: e0 :: errs)) with (last (e0 :: errs)).
        destruct (last (e0 :: errs)) eqn:Hlast; [done|].
        by apply last_None in Hlast.
Qed.

(** Files already extracted do not change how the rest is handled. *)
Lemma extract_app (branch : string) (pre rest : list file_info)
    (docs0 docs1 : list dict) :
  extract' branch pre docs0 = Ok docs1 ->
  extract' branch (pre ++ rest) docs0 = extract' branch rest docs1.
Proof.
  revert docs0. induction pre as [|fi pre IH]; intros docs0; simpl.
  - by intros [= <-].
  - destruct (negb (endswith_any _ include_exts)); [by apply IH|].
    destruct (split_once (filename fi)) as [[top path]|]; [|by apply IH].
    destruct (negb (bool_decide (include_prefixes = [])) && _);
      [by apply IH|].
    destruct (file_read fi) as [raw|e]; [|done]. simpl.
    destruct (frontmatter_loads raw) as [p|e]; [|done]. simpl.
    by apply IH.
Qed.

(** C9: when a file that passes the filters fails to parse, the pass over
    that branch's archive ends with the parser's error whatever files
    follow: no record of the branch is returned, and the loop over the
    candidates goes on with that error as the last one. *)
Theorem parse_failure_aborts_extraction (branch : string) (w : world)
    (resp : response) (pre post : list file_info) (fi : file_info)
    (docs1 : list dict) (top path raw : string) (e : exn)
    (rest : list string) (last_err : option exn) :
  network w (url branch) timeout = Ok resp ->
  status_error resp = None ->
  zip_infolist (resp_content resp) = Ok (pre ++ fi :: post) ->
  extract' branch pre [] = Ok docs1 ->
  endswith_any (lower (filename fi)) include_exts = true ->
  split_once (filename fi) = Some (top, path) ->
  include_prefixes = [] \/ startswith_any path include_prefixes = true ->
  file_read fi = Ok raw ->
  frontmatter_loads raw = Raise e ->
  extract' branch (pre ++ fi :: post) [] = Raise e /\
  attempt' branch w = (Raise e, w ++ [url branch]) /\
  loop' (branch :: rest) last_err w
  = loop' rest (Some e) (w ++ [url branch]).
Proof.
  intros Hnet Hstatus Hzip Hpre Hext Hsplit Hprefix Hread Hparse.
  assert (extract' branch (pre ++ fi :: post) [] = Raise e) as Hextract.
  { rewrite (extract_app _ _ _ _ _ Hpre). simpl.
    rewrite Hext, Hsplit. simpl.
    replace (negb (bool_decide (include_prefixes = []))
             && negb (startswith_any path include_prefixes)) with false.
    2:{ destruct Hprefix as [->| ->]; [done|].
        by rewrite andb_false_r. }
    rewrite Hread. simpl. by rewrite Hparse. }
  assert (attempt' branch w = (Raise e, w ++ [url branch])) as Hattempt.
  { unfold attempt, requests_get. rewrite Hnet, Hstatus, Hzip. simpl.
    by rewrite Hextract. }
  split; [done|]. split; [done|].
  cbn [read_repo_loop]. by rewrite Hattempt.
Qed.
End ReadRepoProps.

Lemma parse_failure_aborts_extraction_witness :
  extract Demo.frontmatter_loads "ethereum" "EIPs" Demo.exts Demo.prefixes
    "main"
    ([ {| filename := "EIPs-main/EIPS/eip-1.md"; file_read := Ok "eip-1" |} ]
     ++ {| filename := "EIPs-main/EIPS/eip-2.md"; file_read := Ok "broken" |}
     :: [ {| filename := "EIPs-main/EIPS/eip-20.md";
             file_read := Ok "eip-20" |} ]) []
  = Raise (External "ScannerError" "mapping values are not allowed here") /\
  attempt Demo.network Demo.zip_infolist Demo.frontmatter_loads "ethereum"
    "EIPs" Demo.exts Demo.prefixes 60 "main" []
  = (Raise (External "ScannerError" "mapping values are not allowed here"),
     [] ++ [Demo.url_main]) /\
  read_repo_loop Demo.network Demo.zip_infolist Demo.frontmatter_loads
    "ethereum" "EIPs" ["main"; "master"] Demo.exts Demo.prefixes 60
    ("main" :: ["master"]) None []
  = read_repo_loop Demo.network Demo.zip_infolist Demo.frontmatter_loads
      "ethereum" "EIPs" ["main"; "master"] Demo.exts Demo.prefixes 60
      ["master"]
      (Some (External "ScannerError" "mapping values are not allowed here"))
      ([] ++ [Demo.url_main]).
Proof.
  apply (parse_failure_aborts_extraction Demo.network Demo.zip_infolist
           Demo.frontmatter_loads "ethereum" "EIPs" ["main"; "master"]
           Demo.exts Demo.prefixes 60 "main" []
           {| status_error := None; resp_content := "zip-main" |}
           [ {| filename := "EIPs-main/EIPS/eip-1.md";
                file_read := Ok "eip-1" |} ]
           [ {| filename := "EIPs-main/EIPS/eip-20.md";
                file_read := Ok "eip-20" |} ]
           {| filename := "EIPs-main/EIPS/eip-2.md";
              file_read := Ok "broken" |}
           [ make_record "ethereum" "EIPs" "main" "EIPs-main/EIPS/eip-1.md"
               "EIPS/eip-1.md"
               {| metadata := {[ "title" := VStr "EIP Purpose and Guidelines" ]};
                  post_content := "What is an EIP?" |} ]
           "EIPs-main" "EIPS/eip-2.md" "broken").
  - reflexivity.
  - reflexivity.
  - reflexivity.
  - vm_compute. reflexivity.
  - reflexivity.
  - reflexivity.
  - right. reflexivity.
  - reflexivity.
  - reflexivity.
Defined.

(** The fallback example of the specification, in the demo world: [main]
    fails, [master] succeeds, the returned branch is ["master"] and the one
    record kept carries it. *)
Example read_repo_data_fallback_example :
  exists d w',
    read_repo_data Demo.network Demo.zip_infolist Demo.frontmatter_loads
      "ethereum" "EIPs" ["main"; "master"] Demo.exts Demo.prefixes 60 []
    = (Ok ([d], "master"), w') /\
    w' = [Demo.url_main; Demo.url_master] /\
    d !! "branch" = Some (VStr "master") /\
    d !! "path" = Some (VStr "EIPS/eip-20.md") /\
    d !! "filename" = Some (VStr "EIPs-master/EIPS/eip-20.md").
Proof. do 2 eexists. split; [vm_compute; reflexivity|]. by vm_compute. Qed.

(* ================================================================== *)
(** * Further properties of the chunker *)

(** ** Substrings *)

Lemma substring_all (s : string) (m : nat) :
  (String.length s <= m)%nat -> String.substring 0 m s = s.
Proof.
  revert m. induction s as [|c s IH]; intros [|m] Hm; simpl in *;
    try done; try lia.
  f_equal. apply IH. lia.
Qed.

Lemma substring_clip (s : string) (a m : nat) :
  (String.length s - a <= m)%nat ->
  String.substring a m s = String.substring a (String.length s - a) s.
Proof.
  revert a m. induction s as [|c s IH]; intros [|a] m Hm.
  - by destruct m.
  - by destruct m.
  - cbn [String.length] in *. rewrite Nat.sub_0_r in *.
    rewrite !substring_all; [done|cbn [String.length]; lia..].
  - cbn [String.length String.substring] in *. apply IH. lia.
Qed.

Lemma append_String (c : ascii) (x y : string) :
  String.append (String c x) y = String c (String.append x y).
Proof. reflexivity. Qed.

Lemma substring_zero (s : string) (a : nat) : String.substring a 0 s = "".
Proof. revert a. induction s as [|c s IH]; intros [|a]; simpl; auto. Qed.

Lemma append_empty_r (x : string) : String.append x "" = x.
Proof. induction x as [|c x IH]; [done|]. by rewrite append_String, IH. Qed.

(** [''.join(l)] peels off its first element. *)
Lemma concat_empty_cons (x : string) (l : list string) :
  String.concat "" (x :: l) = String.append x (String.concat "" l).
Proof. destruct l; simpl; [by rewrite append_empty_r|done]. Qed.

Lemma substring_app (s : string) (a m k : nat) :
  (a + m <= String.length s)%nat ->
  String.append (String.substring a m s) (String.substring (a + m) k s)
  = String.substring a (m + k) s.
Proof.
  revert a m. induction s as [|c s IH]; intros a m Hlen.
  - cbn [String.length] in Hlen.
    assert (a = 0 /\ m = 0)%nat as [-> ->] by lia. by destruct k.
  - destruct a as [|a].
    + destruct m as [|m]; [done|].
      cbn [String.length] in Hlen.
      change ((0 + S m)%nat) with (S m). change ((S m + k)%nat) with (S (m + k)).
      cbn [String.substring]. rewrite append_String.
      f_equal. apply (IH 0%nat m). lia.
    + cbn [String.length] in Hlen.
      change ((S a + m)%nat) with (S (a + m)).
      cbn [String.substring]. apply IH. lia.
Qed.

Lemma substring_substring (s : string) (i k a m : nat) :
  (a + m <= k)%nat ->
  String.substring a m (String.substring i k s) = String.substring (i + a) m s.
Proof.
  revert i k a m. induction s as [|c s IH]; intros i k a m Hle.
  - destruct i, k, a, m; simpl; try done; lia.
  - destruct i as [|i]; [|by apply IH].
    destruct k as [|k].
    { assert (a = 0 /\ m = 0)%nat as [-> ->] by lia. done. }
    destruct a as [|a].
    + destruct m as [|m]; [done|]. simpl. f_equal.
      apply (IH 0%nat k 0%nat m). lia.
    + simpl. apply (IH 0%nat k a m). lia.
Qed.

(** ** Shape of the windows *)

Section MoreOffsets.
Variables size step n : Z.
Hypothesis Hstep : 0 < step.

Local Abbreviation E i := (emitted size n (py_range i n step)).

(** The [k]-th offset emitted from [i] is [i + k * step]. *)
Lemma emitted_kth (j : Z) (i : Z) (k : nat) :
  E i !! k = Some j -> j = i + Z.of_nat k * step.
Proof.
  revert i k. apply (range_ind (fun i => forall k : nat,
    E i !! k = Some j -> j = i + Z.of_nat k * step) n step Hstep).
  intros i IH k.
  destruct (Z.lt_ge_cases i n) as [Hlt|Hge].
  - rewrite (emitted_cons size step n Hstep) by done.
    destruct k as [|k]; simpl.
    + intros [= <-]. lia.
    + destruct (i + size >? n); [done|].
      intros Hk. rewrite (IH Hlt k Hk). lia.
  - rewrite (emitted_nil size step n Hstep) by done. done.
Qed.

(** With [step = size] the windows from [i] on spell the text from [i]
    on. *)
Lemma emitted_concat (s : string) (i : Z) :
  step = size -> n = str_len s -> 0 <= i <= n ->
  String.concat "" ((fun j => str_slice s j (j + size)) <$> E i)
  = String.substring (Z.to_nat i) (Z.to_nat (n - i)) s.
Proof.
  intros Heq Hn. revert i. apply (range_ind (fun i => 0 <= i <= n ->
    String.concat "" ((fun j => str_slice s j (j + size)) <$> E i)
    = String.substring (Z.to_nat i) (Z.to_nat (n - i)) s) n step Hstep).
  intros i IH Hi.
  destruct (Z.lt_ge_cases i n) as [Hlt|Hge].
  - rewrite (emitted_cons size step n Hstep) by done.
    rewrite fmap_cons, concat_empty_cons.
    unfold str_len in Hn. unfold str_slice at 1.
    replace (i + size - i) with size by lia.
    destruct (Z.gtb_spec (i + size) n) as [Hbrk|Hgo].
    + simpl. rewrite append_empty_r, substring_clip by lia. f_equal. lia.
    + rewrite (IH Hlt) by lia.
      replace (Z.to_nat (i + step)) with (Z.to_nat i + Z.to_nat size)%nat
        by lia.
      rewrite substring_app by lia. f_equal. lia.
  - rewrite (emitted_nil size step n Hstep) by done. simpl.
    replace (Z.to_nat (n - i)) with 0%nat by lia.
    by rewrite substring_zero.
Qed.
End MoreOffsets.

(** X1: for valid [size] and [step] and a text of length [n], the [k]-th
    chunk starts at [k * step], every start lies inside the text, and a
    non-empty text yields a first chunk at offset 0. *)
Theorem sliding_window_kth_start (text : value) (size step n : Z) :
  0 < size -> 0 < step -> py_len text = Ok n ->
  exists offs,
    sliding_window text size step = Ok (chunk_at text size <$> offs) /\
    (forall (k : nat) j, offs !! k = Some j ->
       j = Z.of_nat k * step /\ 0 <= j < n) /\
    (0 < n -> offs !! 0%nat = Some 0).
Proof.
  intros Hsize Hstep Hn.
  exists (emitted size n (py_range 0 n step)). split; [|split].
  - by apply sliding_window_emitted.
  - intros k j Hk. split.
    + by rewrite (emitted_kth size step n Hstep j 0 k Hk).
    + pose proof (emitted_bounds size step n Hstep 0) as Hb.
      rewrite Forall_lookup in Hb. exact (Hb _ _ Hk).
  - intros Hpos. by rewrite (emitted_cons size step n Hstep).
Qed.

Lemma sliding_window_kth_start_witness :
  exists offs,
    sliding_window (VStr "0123456789") 4 3
    = Ok (chunk_at (VStr "0123456789") 4 <$> offs) /\
    (forall (k : nat) j, offs !! k = Some j ->
       j = Z.of_nat k * 3 /\ 0 <= j < 10) /\
    (0 < 10 -> offs !! 0%nat = Some 0).
Proof.
  apply (sliding_window_kth_start (VStr "0123456789") 4 3 10);
    [lia|lia|reflexivity].
Defined.

(** X2: no chunk is empty or longer than [size], and every chunk but the
    last has exactly [size] characters. *)
Theorem sliding_window_chunk_lengths (s : string) (size step : Z) :
  0 < size -> 0 < step ->
  exists offs,
    sliding_window (VStr s) size step
    = Ok ((fun j => {[ "start" := VInt j;
                       "content" := VStr (str_slice s j (j + size)) ]})
          <$> offs) /\
    forall (k : nat) j, offs !! k = Some j ->
      0 < str_len (str_slice s j (j + size)) <= size /\
      (is_Some (offs !! S k) -> str_len (str_slice s j (j + size)) = size).
Proof.
  intros Hsize Hstep.
  exists (emitted size (str_len s) (py_range 0 (str_len s) step)). split.
  - by rewrite (sliding_window_emitted _ _ _ (str_len s)).
  - intros k j Hk.
    pose proof (emitted_bounds size step (str_len s) Hstep 0) as Hb.
    rewrite Forall_lookup in Hb. specialize (Hb _ _ Hk). simpl in Hb.
    rewrite str_slice_len by lia. split; [lia|].
    intros [j' Hk'].
    destruct (emitted_adjacent size step (str_len s) Hstep 0 k j j' Hk Hk').
    lia.
Qed.

Lemma sliding_window_chunk_lengths_witness :
  exists offs,
    sliding_window (VStr "0123456789") 4 3
    = Ok ((fun j => {[ "start" := VInt j;
                       "content" := VStr (str_slice "0123456789" j (j + 4)) ]})
          <$> offs) /\
    forall (k : nat) j, offs !! k = Some j ->
      0 < str_len (str_slice "0123456789" j (j + 4)) <= 4 /\
      (is_Some (offs !! S k) ->
       str_len (str_slice "0123456789" j (j + 4)) = 4).
Proof. apply (sliding_window_chunk_lengths "0123456789" 4 3); lia. Defined.

(** X3: a non-empty text shorter than [size] comes back whole, as the
    single chunk at offset 0. *)
Theorem sliding_window_short_text (s : string) (size step : Z) :
  0 < step -> 0 < str_len s < size ->
  sliding_window (VStr s) size step
  = Ok [ {[ "start" := VInt 0; "content" := VStr s ]} ].
Proof.
  intros Hstep [Hpos Hlt].
  rewrite (sliding_window_emitted _ _ _ (str_len s)) by (done || lia).
  rewrite (emitted_cons size step (str_len s) Hstep) by done.
  destruct (Z.gtb_spec (0 + size) (str_len s)); [|lia].
  simpl. unfold chunk_at, py_slice, str_slice. simpl.
  rewrite substring_all; [done|]. unfold str_len in Hlt. lia.
Qed.

Lemma sliding_window_short_text_witness :
  sliding_window (VStr "short") 2000 1000
  = Ok [ {[ "start" := VInt 0; "content" := VStr "short" ]} ].
Proof.
  apply (sliding_window_short_text "short" 2000 1000); [lia|].
  vm_compute. split; reflexivity.
Defined.

(** X4: with [step = size] the chunks partition the text: their contents,
    joined in order, give the text back. *)
Theorem sliding_window_partition (s : string) (size : Z) :
  0 < size ->
  exists offs,
    sliding_window (VStr s) size size
    = Ok ((fun j => {[ "start" := VInt j;
                       "content" := VStr (str_slice s j (j + size)) ]})
          <$> offs) /\
    String.concat "" ((fun j => str_slice s j (j + size)) <$> offs) = s.
Proof.
  intros Hsize.
  exists (emitted size (str_len s) (py_range 0 (str_len s) size)). split.
  - by rewrite (sliding_window_emitted _ _ _ (str_len s)).
  - rewrite (emitted_concat size size (str_len s) Hsize s 0)
      by (done || unfold str_len; lia).
    apply substring_all. unfold str_len. lia.
Qed.

Lemma sliding_window_partition_witness :
  exists offs,
    sliding_window (VStr "0123456789") 4 4
    = Ok ((fun j => {[ "start" := VInt j;
                       "content" := VStr (str_slice "0123456789" j (j + 4)) ]})
          <$> offs) /\
    String.concat "" ((fun j => str_slice "0123456789" j (j + 4)) <$> offs)
    = "0123456789".
Proof. apply (sliding_window_partition "0123456789" 4). lia. Defined.

(** X5: with [step < size], neighbouring chunks overlap by [size - step]
    characters: the tail of a chunk from its position [step] on is the head
    of the next chunk. *)
Theorem sliding_window_overlap (s : string) (size step : Z) :
  0 < step < size ->
  exists offs,
    sliding_window (VStr s) size step
    = Ok ((fun j => {[ "start" := VInt j;
                       "content" := VStr (str_slice s j (j + size)) ]})
          <$> offs) /\
    forall (k : nat) j j', offs !! k = Some j -> offs !! S k = Some j' ->
      String.substring (Z.to_nat step) (Z.to_nat (size - step))
        (str_slice s j (j + size))
      = String.substring 0 (Z.to_nat (size - step))
          (str_slice s j' (j' + size)).
Proof.
  intros [Hstep Hlt].
  exists (emitted size (str_len s) (py_range 0 (str_len s) step)). split.
  - by rewrite (sliding_window_emitted _ _ _ (str_len s)) by (done || lia).
  - intros k j j' Hk Hk'.
    destruct (emitted_adjacent size step (str_len s) Hstep 0 k j j' Hk Hk')
      as [-> Hfull].
    pose proof (emitted_bounds size step (str_len s) Hstep 0) as Hb.
    rewrite Forall_lookup in Hb. specialize (Hb _ _ Hk). simpl in Hb.
    unfold str_slice.
    rewrite (substring_substring s (Z.to_nat j)) by lia.
    rewrite (substring_substring s (Z.to_nat (j + step))) by lia.
    f_equal. lia.
Qed.

Lemma sliding_window_overlap_witness :
  exists offs,
    sliding_window (VStr "0123456789") 4 3
    = Ok ((fun j => {[ "start" := VInt j;
                       "content" := VStr (str_slice "0123456789" j (j + 4)) ]})
          <$> offs) /\
    forall (k : nat) j j', offs !! k = Some j -> offs !! S k = Some j' ->
      String.substring (Z.to_nat 3) (Z.to_nat (4 - 3))
        (str_slice "0123456789" j (j + 4))
      = String.substring 0 (Z.to_nat (4 - 3))
          (str_slice "0123456789" j' (j' + 4)).
Proof. apply (sliding_window_overlap "0123456789" 4 3). lia. Defined.

(* ================================================================== *)
(** * Further properties of [chunk_documents] *)

(** The loop over [docs1 ++ docs2] is the loop over [docs1] followed, when
    it did not raise, by the loop over [docs2]. *)
Lemma chunk_documents_loop_app (docs1 docs2 : list loc) (size step : Z)
    (chunks : list dict) (h : store) :
  chunk_documents_loop (docs1 ++ docs2) size step chunks h
  = match chunk_documents_loop docs1 size step chunks h with
    | (Ok c, h1) => chunk_documents_loop docs2 size step c h1
    | (Raise e, h1) => (Raise e, h1)
    end.
Proof.
  revert chunks h. induction docs1 as [|doc rest IH]; intros chunks h.
  - done.
  - rewrite <- app_comm_cons. destruct (h !! doc) as [d|] eqn:Hd.
    + rewrite !(chunk_documents_loop_step _ d) by done.
      destruct (sliding_window _ size step); [apply IH|done].
    + by rewrite !chunk_documents_loop_not_dict.
Qed.

(** What the loop returns depends on the store only through the records
    it is handed, and on the chunks gathered so far only as a prefix. *)
Lemma chunk_documents_loop_frame (docs : list loc) (size step : Z)
    (h : store) :
  Forall (fun l => is_Some (h !! l)) docs ->
  forall c1 c2 e1 e2, exists r : result (list dict),
    (chunk_documents_loop docs size step c1 (h ++ e1)).1
    = rbind r (fun c => Ok (c1 ++ c)) /\
    (chunk_documents_loop docs size step c2 (h ++ e2)).1
    = rbind r (fun c => Ok (c2 ++ c)).
Proof.
  induction 1 as [|doc rest [d Hd] _ IH]; intros c1 c2 e1 e2.
  - exists (Ok []). simpl. by rewrite !app_nil_r.
  - rewrite !(chunk_documents_loop_step _ d) by by apply lookup_app_l_Some.
    destruct (sliding_window (body d) size step) as [chs|e].
    + rewrite <- !app_assoc.
      destruct (IH (c1 ++ record_chunks d chs) (c2 ++ record_chunks d chs)
                  (e1 ++ [delete "content" d]) (e2 ++ [delete "content" d]))
        as (r & H1 & H2).
      exists (rbind r (fun c => Ok (record_chunks d chs ++ c))).
      unfold record_chunks in *. rewrite H1, H2.
      destruct r; simpl; by rewrite <- ?app_assoc.
    + by exists (Raise e).
Qed.

Lemma sliding_window_invalid (text : value) (size step : Z) :
  size <= 0 \/ step <= 0 ->
  exists msg, sliding_window text size step = Raise (ValueError msg).
Proof.
  intros H. eexists. unfold sliding_window.
  destruct (Z.leb_spec size 0), (Z.leb_spec step 0); simpl; try done; lia.
Qed.

(** X6: [chunk_documents] itself does not validate [size] and [step]: on
    an empty list it returns the empty list whatever they are, and with a
    non-positive [size] or [step] it raises [ValueError] as soon as the
    list starts with a record. *)
Theorem chunk_documents_invalid_params (doc : loc) (rest : list loc)
    (d : dict) (size step : Z) (h : store) :
  size <= 0 \/ step <= 0 ->
  h !! doc = Some d ->
  chunk_documents [] size step h = (Ok [], h) /\
  exists msg,
    (chunk_documents (doc :: rest) size step h).1 = Raise (ValueError msg).
Proof.
  intros Hbad Hd. split; [done|].
  destruct (sliding_window_invalid (body d) size step Hbad) as [msg Hmsg].
  exists msg. unfold chunk_documents.
  by rewrite (chunk_documents_loop_step _ d), Hmsg.
Qed.

Lemma chunk_documents_invalid_params_witness :
  chunk_documents [] 0 1000 [ {[ "content" := VStr "abc" ]} ]
  = (Ok [], [ {[ "content" := VStr "abc" ]} ]) /\
  exists msg,
    (chunk_documents (0%nat :: []) 0 1000 [ {[ "content" := VStr "abc" ]} ]).1
    = Raise (ValueError msg).
Proof.
  apply (chunk_documents_invalid_params 0%nat [] {[ "content" := VStr "abc" ]}
           0 1000 [ {[ "content" := VStr "abc" ]} ]).
  - left. lia.
  - reflexivity.
Defined.

(** X7: the call is all or nothing: when the body of one record is not a
    sequence (a number, a null, a date), [len] raises and the whole call
    raises with it, the chunks of the records before it included. *)
Theorem chunk_documents_all_or_nothing (pre post : list loc) (doc : loc)
    (ds : list dict) (d : dict) (e : exn) (size step : Z) (h : store) :
  0 < size -> 0 < step ->
  Forall2 (fun l d => h !! l = Some d) pre ds ->
  Forall (fun d => exists n, py_len (body d) = Ok n) ds ->
  h !! doc = Some d ->
  py_len (body d) = Raise e ->
  (chunk_documents (pre ++ doc :: post) size step h).1 = Raise e.
Proof.
  intros Hsize Hstep Hpre Hseq Hd He.
  assert (exists chss,
    Forall2 (fun d chs => sliding_window (body d) size step = Ok chs)
      ds chss) as [chss Hchss].
  { clear Hpre. induction Hseq as [|d' ds' [n Hn] _ [chss IH]].
    - by exists [].
    - destruct (sliding_window_total _ size step n Hsize Hstep Hn)
        as (offs & _ & Hsw).
      eexists (_ :: chss). by constructor. }
  unfold chunk_documents. rewrite chunk_documents_loop_app.
  pose proof (chunk_documents_loop_run pre ds chss size step h Hpre Hchss
                [] []) as Hrun.
  rewrite app_nil_r in Hrun. rewrite Hrun.
  rewrite (chunk_documents_loop_step _ d) by by apply lookup_app_l_Some.
  unfold sliding_window.
  rewrite (proj2 (Z.leb_gt size 0) Hsize), (proj2 (Z.leb_gt step 0) Hstep).
  simpl. by rewrite He.
Qed.

Lemma chunk_documents_all_or_nothing_witness :
  (chunk_documents ([0%nat] ++ 1%nat :: [0%nat]) 4 2
     [ {[ "content" := VStr "0123456789" ]}; {[ "content" := VInt 42 ]} ]).1
  = Raise (TypeError "object has no len()").
Proof.
  apply (chunk_documents_all_or_nothing [0%nat] [0%nat] 1%nat
           [ {[ "content" := VStr "0123456789" ]} ]
           {[ "content" := VInt 42 ]}).
  - lia.
  - lia.
  - repeat constructor.
  - repeat constructor. exists 10. reflexivity.
  - reflexivity.
  - reflexivity.
Defined.

Lemma chunk_at_dom (text : value) (size j : Z) :
  dom (chunk_at text size j) = ({[ "start"; "content" ]} : gset string).
Proof.
  unfold chunk_at. rewrite dom_insert_L, dom_singleton_L. done.
Qed.

Lemma record_chunk_dom (d : dict) (text : value) (size j : Z) :
  dom (dict_update (chunk_at text size j) (delete "content" d))
  = ({[ "start"; "content" ]} : gset string) ∪ dom d.
Proof.
  unfold dict_update.
  rewrite dom_union_L, dom_delete_L, chunk_at_dom.
  apply set_eq. intros k.
  rewrite !elem_of_union, elem_of_difference, !elem_of_singleton.
  destruct (decide (k = "content")) as [->|Hk]; intuition auto.
Qed.

(** X8: for valid [size] and [step], every chunk returned belongs to one
    of the records: its keys are the record's keys together with ["start"]
    and ["content"], and its ["content"] is a window [body[j:j+size]] of that
    record's body at some offset [j] inside the body. *)
Theorem chunk_documents_chunk_shape (docs : list loc) (ds : list dict)
    (size step : Z) (h : store) :
  0 < size -> 0 < step ->
  Forall2 (fun l d => h !! l = Some d) docs ds ->
  Forall (fun d => exists n, py_len (body d) = Ok n) ds ->
  exists chunks,
    (chunk_documents docs size step h).1 = Ok chunks /\
    forall c, c ∈ chunks ->
      exists d j n, d ∈ ds /\ py_len (body d) = Ok n /\ 0 <= j < n /\
        dom c = ({[ "start"; "content" ]} : gset string) ∪ dom d /\
        c !! "content" = Some (py_slice (body d) j (j + size)).
Proof.
  intros Hsize Hstep Hdocs Hseq.
  assert (exists chss,
    Forall2 (fun d chs => sliding_window (body d) size step = Ok chs)
      ds chss /\
    Forall2 (fun d chs => exists n offs, py_len (body d) = Ok n /\
      Forall (fun j => 0 <= j < n) offs /\
      chs = chunk_at (body d) size <$> offs) ds chss) as (chss & Hrun & Hoffs).
  { clear Hdocs. induction Hseq as [|d ds [n Hn] _ (chss & H1 & H2)].
    - exists []. split; constructor.
    - exists ((chunk_at (body d) size
                <$> emitted size n (py_range 0 n step)) :: chss).
      split; constructor; try done.
      + by apply sliding_window_emitted.
      + exists n, (emitted size n (py_range 0 n step)).
        split; [done|]. split; [|done]. by apply emitted_bounds. }
  exists (concat (zip_with record_chunks ds chss)). split.
  - by rewrite (chunk_documents_run docs ds chss).
  - clear Hdocs Hseq Hrun. intros c Hc.
    induction Hoffs as [|d chs ds chss (n & offs & Hn & Hb & ->) _ IH].
    + by apply elem_of_nil in Hc.
    + simpl in Hc. apply elem_of_app in Hc as [Hc|Hc].
      * unfold record_chunks in Hc.
        apply list_elem_of_fmap in Hc as (ch & -> & Hch).
        apply list_elem_of_fmap in Hch as (j & -> & Hj).
        rewrite Forall_forall in Hb.
        exists d, j, n. split; [left|]. split; [done|].
        split; [by apply Hb|]. split; [apply record_chunk_dom|].
        by rewrite dict_update_content, chunk_at_content.
      * destruct (IH Hc) as (d' & j & n' & Hd' & Hrest).
        exists d', j, n'. split; [by right|done].
Qed.

Lemma chunk_documents_chunk_shape_witness :
  exists chunks,
    (chunk_documents [0%nat] 4 4
       [ {[ "content" := VStr "0123456789"; "path" := VStr "a.md" ]} ]).1
    = Ok chunks /\
    forall c, c ∈ chunks ->
      exists d j n,
        d ∈ [ ({[ "content" := VStr "0123456789"; "path" := VStr "a.md" ]}
               : dict) ] /\
        py_len (body d) = Ok n /\ 0 <= j < n /\
        dom c = ({[ "start"; "content" ]} : gset string) ∪ dom d /\
        c !! "content" = Some (py_slice (body d) j (j + 4)).
Proof.
  apply (chunk_documents_chunk_shape [0%nat]
           [ {[ "content" := VStr "0123456789"; "path" := VStr "a.md" ]} ]
           4 4).
  - lia.
  - lia.
  - repeat constructor.
  - repeat constructor. exists 10. reflexivity.
Defined.

(** X9: chunking a concatenation of two lists of records gives the chunks
    of the first list followed by those of the second, and raises what the
    first of the two calls to raise would raise. *)
Theorem chunk_documents_app (docs1 docs2 : list loc) (size step : Z)
    (h : store) :
  Forall (fun l => is_Some (h !! l)) docs2 ->
  (chunk_documents (docs1 ++ docs2) size step h).1
  = rbind (chunk_documents docs1 size step h).1 (fun c1 =>
    rbind (chunk_documents docs2 size step h).1 (fun c2 =>
    Ok (c1 ++ c2))).
Proof.
  intros Hdocs2. unfold chunk_documents.
  rewrite chunk_documents_loop_app.
  destruct (chunk_documents_loop_extends docs1 size step [] h) as [ext Hext].
  destruct (chunk_documents_loop docs1 size step [] h) as [[c1|e] h1];
    [|done].
  simpl in Hext. subst h1.
  destruct (chunk_documents_loop_frame docs2 size step h Hdocs2 c1 [] ext [])
    as (r & H1 & H2).
  rewrite app_nil_r in H2. simpl. rewrite H1, H2.
  by destruct r.
Qed.

Lemma chunk_documents_app_witness :
  (chunk_documents ([0%nat] ++ [1%nat]) 4 4
     [ {[ "content" := VStr "0123456789" ]}; {[ "content" := VStr "abc" ]} ]).1
  = rbind (chunk_documents [0%nat] 4 4
             [ {[ "content" := VStr "0123456789" ]};
               {[ "content" := VStr "abc" ]} ]).1 (fun c1 =>
    rbind (chunk_documents [1%nat] 4 4
             [ {[ "content" := VStr "0123456789" ]};
               {[ "content" := VStr "abc" ]} ]).1 (fun c2 =>
    Ok (c1 ++ c2))).
Proof.
  apply (chunk_documents_app [0%nat] [1%nat] 4 4).
  repeat constructor; by eexists.
Defined.

(* ================================================================== *)
(** * Further properties of the extractor *)

(** ** Splitting an archive name *)

Lemma index_slash_cons (b : ascii) (s : string) :
  String.index 0 "/" (String b s)
  = if ascii_dec "/" b then Some 0%nat
    else S <$> String.index 0 "/" s.
Proof.
  cbn [String.index String.prefix].
  destruct (ascii_dec "/" b); [by destruct s|].
  by destruct (String.index 0 "/" s).
Qed.

Lemma index_slash_split (s : string) (i : nat) :
  String.index 0 "/" s = Some i ->
  s = String.append (String.substring 0 i s)
        (String.append "/"
           (String.substring (S i) (String.length s - S i) s)) /\
  String.index 0 "/" (String.substring 0 i s) = None.
Proof.
  revert i. induction s as [|b s IH]; intros i; [done|].
  rewrite index_slash_cons. destruct (ascii_dec "/" b) as [<-|Hb].
  - intros [= <-]. split; [|done].
    cbn [String.length String.substring].
    rewrite substring_all by lia. done.
  - destruct (String.index 0 "/" s) as [n|]; [|done].
    intros [= <-]. destruct (IH n eq_refl) as [Hs Hnone].
    cbn [String.length String.substring]. split.
    + rewrite append_String. f_equal. exact Hs.
    + rewrite index_slash_cons. destruct (ascii_dec "/" b); [done|].
      by rewrite Hnone.
Qed.

Lemma index_slash_join (top path : string) :
  String.index 0 "/" top = None ->
  String.index 0 "/" (String.append top (String.append "/" path))
  = Some (String.length top).
Proof.
  induction top as [|b top IH].
  - intros _. by destruct path.
  - rewrite index_slash_cons. destruct (ascii_dec "/" b); [done|].
    destruct (String.index 0 "/" top) eqn:Htop; [done|]. intros _.
    rewrite append_String, index_slash_cons.
    destruct (ascii_dec "/" b); [done|]. by rewrite IH.
Qed.

Lemma length_append (a b : string) :
  String.length (String.append a b) = (String.length a + String.length b)%nat.
Proof. induction a as [|c a IH]; [done|]. rewrite append_String. simpl. lia. Qed.

Lemma substring_append_l (a b : string) :
  String.substring 0 (String.length a) (String.append a b) = a.
Proof.
  induction a as [|c a IH]; [by destruct b|].
  rewrite append_String. simpl. by rewrite IH.
Qed.

Lemma substring_append_r (a b : string) (k m : nat) :
  String.substring (String.length a + k) m (String.append a b)
  = String.substring k m b.
Proof. induction a as [|c a IH]; [done|]. by rewrite append_String. Qed.

Lemma split_once_join_inv (name top path : string) :
  split_once name = Some (top, path) ->
  name = String.append top (String.append "/" path) /\
  String.index 0 "/" top = None.
Proof.
  unfold split_once.
  destruct (String.index 0 "/" name) as [i|] eqn:Hi; [|done].
  intros [= <- <-]. by apply index_slash_split.
Qed.

(** X10: [split_once] and joining with ["/"] are inverse to each other:
    a name splits into [(top, path)] exactly when it is [top / path] and
    [top] holds no separator. *)
Theorem split_once_join (name top path : string) :
  split_once name = Some (top, path) <->
  name = String.append top (String.append "/" path) /\
  String.index 0 "/" top = None.
Proof.
  unfold split_once. split.
  - destruct (String.index 0 "/" name) as [i|] eqn:Hi; [|done].
    intros [= <- <-]. by apply index_slash_split.
  - intros [-> Htop]. rewrite (index_slash_join _ _ Htop). f_equal. f_equal.
    + apply substring_append_l.
    + replace (S (String.length top)) with (String.length top + 1)%nat by lia.
      rewrite substring_append_r, !length_append.
      cbn [String.length]. simpl.
      replace (String.length top + S (String.length path)
               - (String.length top + 1))%nat
        with (String.length path) by lia.
      by rewrite substring_all.
Qed.

(** ** Records of an extraction pass *)

Section ExtractProps.
Variable frontmatter_loads : string -> result post.
Variables repo_owner repo_name : string.
Variables include_exts include_prefixes : list string.

Local Abbreviation extract' :=
  (extract frontmatter_loads repo_owner repo_name include_exts
     include_prefixes).
Local Abbreviation kept' := (kept include_exts include_prefixes).
Local Abbreviation record' := (make_record repo_owner repo_name).

Lemma extract_skip (branch : string) (fi : file_info)
    (rest : list file_info) (docs : list dict) :
  kept' fi = None ->
  extract' branch (fi :: rest) docs = extract' branch rest docs.
Proof.
  unfold kept. cbn [extract].
  destruct (negb (endswith_any _ include_exts)); [done|].
  destruct (split_once (filename fi)) as [[top path]|]; [|done].
  by destruct (negb (bool_decide (include_prefixes = [])) && _).
Qed.

Lemma extract_kept (branch : string) (fi : file_info)
    (rest : list file_info) (docs : list dict) (path : string) :
  kept' fi = Some path ->
  extract' branch (fi :: rest) docs
  = rbind (file_read fi) (fun raw =>
    rbind (frontmatter_loads raw) (fun p =>
    extract' branch rest (docs ++ [record' branch (filename fi) path p]))).
Proof.
  unfold kept. cbn [extract].
  destruct (negb (endswith_any _ include_exts)); [done|].
  destruct (split_once (filename fi)) as [[top path']|]; [|done].
  destruct (negb (bool_decide (include_prefixes = [])) && _); [done|].
  by intros [= ->].
Qed.

(** A successful pass appends one record per member that passes the
    filters, in archive order, each built from that member's parse. *)
Lemma extract_inv (branch : string) (infos : list file_info)
    (docs0 docs : list dict) :
  extract' branch infos docs0 = Ok docs ->
  exists new, docs = docs0 ++ new /\
    Forall2 (fun (m : file_info * string) (d : dict) =>
      exists raw p, file_read m.1 = Ok raw /\ frontmatter_loads raw = Ok p /\
                    d = record' branch (filename m.1) m.2 p)
      (omap (fun fi => (fun path => (fi, path)) <$> kept' fi) infos) new.
Proof.
  revert docs0. induction infos as [|fi rest IH]; intros docs0.
  - simpl. intros [= <-]. exists []. by rewrite app_nil_r.
  - destruct (kept' fi) as [path|] eqn:Hk.
    + rewrite (extract_kept _ _ _ _ path Hk).
      destruct (file_read fi) as [raw|e] eqn:Hraw; [|done]. simpl.
      destruct (frontmatter_loads raw) as [p|e] eqn:Hp; [|done]. simpl.
      intros Hrest. destruct (IH _ Hrest) as (new & -> & Hnew).
      exists (record' branch (filename fi) path p :: new).
      rewrite <- app_assoc. split; [done|].
      cbn [omap list_omap]. rewrite Hk. simpl. constructor; [|done].
      by exists raw, p.
    + rewrite (extract_skip _ _ _ _ Hk). intros Hrest.
      destruct (IH _ Hrest) as (new & -> & Hnew).
      exists new. split; [done|]. cbn [omap list_omap]. by rewrite Hk.
Qed.

Lemma record_filename (branch name path : string) (p : post) :
  record' branch name path p !! "filename" = Some (VStr name).
Proof. unfold make_record. by simplify_map_eq. Qed.

Lemma record_path (branch name path : string) (p : post) :
  record' branch name path p !! "path" = Some (VStr path).
Proof. unfold make_record. by simplify_map_eq. Qed.

Lemma record_content (branch name path : string) (p : post) :
  record' branch name path p !! "content" = Some (VStr (post_content p)).
Proof. unfold make_record. by simplify_map_eq. Qed.

Lemma record_other (branch name path : string) (p : post) (k : string) :
  k ∉ reserved_keys ->
  record' branch name path p !! k = metadata p !! k.
Proof.
  unfold reserved_keys. rewrite !not_elem_of_cons. intros (?&?&?&?&?&?&_).
  unfold make_record, to_dict. by rewrite !lookup_insert_ne.
Qed.

(** X11: the records of a successful pass are exactly the archive members
    that pass the filters, in archive order: their ["filename"] and ["path"]
    fields list the kept members' names and repository paths. *)
Theorem extract_keeps_filtered_members_in_order (branch : string)
    (infos : list file_info) (docs : list dict) :
  extract' branch infos [] = Ok docs ->
  (fun d : dict => (d !! "filename", d !! "path")) <$> docs
  = (fun m : string * string => (Some (VStr m.1), Some (VStr m.2)))
    <$> kept_members include_exts include_prefixes infos.
Proof.
  intros Hrun. destruct (extract_inv _ _ _ _ Hrun) as (new & -> & Hnew).
  simpl. unfold kept_members. clear Hrun. revert new Hnew.
  induction infos as [|fi rest IH]; intros new; cbn [omap list_omap].
  - intros Hnew. by apply Forall2_nil_inv_l in Hnew as ->.
  - destruct (kept' fi) as [path|]; simpl; [|apply IH].
    intros Hnew.
    apply Forall2_cons_inv_l in Hnew
      as (d & new' & (raw & p & _ & _ & ->) & Hnew & ->).
    rewrite !fmap_cons, record_filename, record_path. simpl.
    f_equal. by apply IH.
Qed.

(** X12: a pass succeeds exactly when every member that passes the
    filters can be read and parsed; members that fail a filter are never
    read, so they cannot make the pass fail. *)
Theorem extract_succeeds_iff_kept_members_parse (branch : string)
    (infos : list file_info) :
  (exists docs, extract' branch infos [] = Ok docs) <->
  Forall (fun fi => is_Some (kept' fi) ->
            exists raw p, file_read fi = Ok raw /\
                          frontmatter_loads raw = Ok p) infos.
Proof.
  generalize (@nil dict) as docs0.
  induction infos as [|fi rest IH]; intros docs0.
  - split; [constructor|]. by exists docs0.
  - rewrite Forall_cons. destruct (kept' fi) as [path|] eqn:Hk.
    + rewrite (extract_kept _ _ _ _ path Hk).
      destruct (file_read fi) as [raw|e]; simpl.
      * destruct (frontmatter_loads raw) as [p|e] eqn:Hp; simpl.
        -- rewrite IH. split; [|by intros [_ ?]]. intros Hok.
           split; [|done]. intros _. by exists raw, p.
        -- split; [by intros [? ?]|]. intros [Hparse _].
           destruct Hparse as (raw' & p & [= <-] & Hp'); [done|]. congruence.
      * split; [by intros [? ?]|]. intros [Hparse _].
        by destruct Hparse as (raw' & p & ? & _).
    + rewrite (extract_skip _ _ _ _ Hk), IH.
      split; [|by intros [_ ?]]. intros Hok. split; [|done].
      by intros [? ?].
Qed.

(** X13: every record of a successful pass satisfies the record
    invariant: ["filename"] is the archive name, ["path"] is that name
    without its first segment (which holds no separator), the name ends,
    case-insensitively, with one of the extensions, the path starts with one
    of the prefixes when any is configured, ["content"] is a string, and the
    repository and branch fields are those of the call. *)
Theorem extract_record_invariant (branch : string)
    (infos : list file_info) (docs : list dict) :
  extract' branch infos [] = Ok docs ->
  Forall (fun d : dict =>
    exists name top path text,
      d !! "filename" = Some (VStr name) /\
      d !! "path" = Some (VStr path) /\
      name = String.append top (String.append "/" path) /\
      String.index 0 "/" top = None /\
      endswith_any (lower name) include_exts = true /\
      (include_prefixes = [] \/ startswith_any path include_prefixes = true) /\
      d !! "content" = Some (VStr text) /\
      d !! "repo_owner" = Some (VStr repo_owner) /\
      d !! "repo_name" = Some (VStr repo_name) /\
      d !! "branch" = Some (VStr branch)) docs.
Proof.
  intros Hrun. destruct (extract_inv _ _ _ _ Hrun) as (new & -> & Hnew).
  simpl. clear Hrun.
  eapply Forall2_Forall_r; [exact Hnew|].
  apply Forall_forall. intros [fi path] Hm d (raw & p & _ & _ & ->).
  apply list_elem_of_omap in Hm as (fi' & _ & Hk).
  destruct (kept' fi') as [path'|] eqn:Hkept; [|done].
  simpl in Hk. injection Hk as -> ->. simpl.
  unfold kept in Hkept.
  destruct (endswith_any _ include_exts) eqn:Hext; [|done]. simpl in Hkept.
  destruct (split_once (filename fi)) as [[top path']|] eqn:Hsplit; [|done].
  destruct (negb (bool_decide (include_prefixes = [])) && _) eqn:Hpre;
    [done|].
  injection Hkept as ->.
  apply split_once_join_inv in Hsplit as [Hname Htop].
  exists (filename fi), top, path, (post_content p).
  split; [apply record_filename|]. split; [apply record_path|].
  split; [done|]. split; [done|]. split; [done|]. split.
  { apply andb_false_iff in Hpre as [Hpre|Hpre].
    - left. apply negb_false_iff in Hpre. by apply bool_decide_eq_true in Hpre.
    - right. by apply negb_false_iff in Hpre. }
  split; [apply record_content|].
  unfold make_record. by simplify_map_eq.
Qed.

(** X14: front matter cannot override what the pipeline sets: every
    record of a successful pass comes from a member that passes the filters,
    and on it each of the six reserved keys holds the pipeline's value
    (["content"] the parsed body, ["filename"] the archive name, ["path"] the
    repository path, ["repo_owner"], ["repo_name"] and ["branch"] those of
    the call), while every other key has exactly the value the parsed front
    matter of that file gives it, if any. *)
Theorem extract_metadata_passthrough (branch : string)
    (infos : list file_info) (docs : list dict) :
  extract' branch infos [] = Ok docs ->
  Forall (fun d : dict =>
    exists fi path raw p,
      fi ∈ infos /\ kept' fi = Some path /\
      file_read fi = Ok raw /\ frontmatter_loads raw = Ok p /\
      d !! "content" = Some (VStr (post_content p)) /\
      d !! "filename" = Some (VStr (filename fi)) /\
      d !! "path" = Some (VStr path) /\
      d !! "repo_owner" = Some (VStr repo_owner) /\
      d !! "repo_name" = Some (VStr repo_name) /\
      d !! "branch" = Some (VStr branch) /\
      forall k, k ∉ reserved_keys -> d !! k = metadata p !! k) docs.
Proof.
  intros Hrun. destruct (extract_inv _ _ _ _ Hrun) as (new & -> & Hnew).
  simpl. clear Hrun.
  eapply Forall2_Forall_r; [exact Hnew|].
  apply Forall_forall. intros [fi path] Hm d (raw & p & Hraw & Hp & ->).
  apply list_elem_of_omap in Hm as (fi' & Hin & Hk).
  destruct (kept' fi') as [path'|] eqn:Hkept; [|done].
  simpl in Hk. injection Hk as -> ->. simpl in *.
  exists fi, path, raw, p.
  split; [done|]. split; [done|]. split; [done|]. split; [done|].
  split; [apply record_content|]. split; [apply record_filename|].
  split; [apply record_path|].
  split; [unfold make_record; by simplify_map_eq|].
  split; [unfold make_record; by simplify_map_eq|].
  split; [unfold make_record; by simplify_map_eq|].
  intros k Hk. by apply record_other.
Qed.
End ExtractProps.

Lemma extract_keeps_filtered_members_in_order_witness :
  (fun d : dict => (d !! "filename", d !! "path")) <$> Demo.master_docs
  = (fun m : string * string => (Some (VStr m.1), Some (VStr m.2)))
    <$> kept_members Demo.exts Demo.prefixes Demo.master_members.
Proof.
  apply (extract_keeps_filtered_members_in_order Demo.frontmatter_loads
           "ethereum" "EIPs" Demo.exts Demo.prefixes "master"
           Demo.master_members Demo.master_docs).
  vm_compute. reflexivity.
Defined.

Lemma extract_record_invariant_witness :
  Forall (fun d : dict =>
    exists name top path text,
      d !! "filename" = Some (VStr name) /\
      d !! "path" = Some (VStr path) /\
      name = String.append top (String.append "/" path) /\
      String.index 0 "/" top = None /\
      endswith_any (lower name) Demo.exts = true /\
      (Demo.prefixes = [] \/ startswith_any path Demo.prefixes = true) /\
      d !! "content" = Some (VStr text) /\
      d !! "repo_owner" = Some (VStr "ethereum") /\
      d !! "repo_name" = Some (VStr "EIPs") /\
      d !! "branch" = Some (VStr "master")) Demo.master_docs.
Proof.
  apply (extract_record_invariant Demo.frontmatter_loads "ethereum" "EIPs"
           Demo.exts Demo.prefixes "master" Demo.master_members
           Demo.master_docs).
  vm_compute. reflexivity.
Defined.

Lemma extract_metadata_passthrough_witness :
  Forall (fun d : dict =>
    exists fi path raw p,
      fi ∈ Demo.master_members /\
      kept Demo.exts Demo.prefixes fi = Some path /\
      file_read fi = Ok raw /\ Demo.frontmatter_loads raw = Ok p /\
      d !! "content" = Some (VStr (post_content p)) /\
      d !! "filename" = Some (VStr (filename fi)) /\
      d !! "path" = Some (VStr path) /\
      d !! "repo_owner" = Some (VStr "ethereum") /\
      d !! "repo_name" = Some (VStr "EIPs") /\
      d !! "branch" = Some (VStr "master") /\
      forall k, k ∉ reserved_keys -> d !! k = metadata p !! k)
    Demo.master_docs.
Proof.
  apply (extract_metadata_passthrough Demo.frontmatter_loads "ethereum"
           "EIPs" Demo.exts Demo.prefixes "master" Demo.master_members
           Demo.master_docs).
  vm_compute. reflexivity.
Defined.

(* ================================================================== *)
(** * Further properties of [read_repo_data] and [index_data] *)

Section ReadRepoMore.
Variable network : world -> string -> Z -> result response.
Variable zip_infolist : string -> result (list file_info).
Variable frontmatter_loads : string -> result post.
Variables repo_owner repo_name : string.
Variable branches : list string.
Variables include_exts include_prefixes : list string.
Variable timeout : Z.

Local Abbreviation url := (branch_url repo_owner repo_name).
Local Abbreviation extract' :=
  (extract frontmatter_loads repo_owner repo_name include_exts
     include_prefixes).
Local Abbreviation attempt' :=
  (attempt network zip_infolist frontmatter_loads repo_owner repo_name
     include_exts include_prefixes timeout).
Local Abbreviation loop' :=
  (read_repo_loop network zip_infolist frontmatter_loads repo_owner
     repo_name branches include_exts include_prefixes timeout).

Lemma extract_none_kept (branch : string) (infos : list file_info)
    (docs0 : list dict) :
  Forall (fun fi => kept include_exts include_prefixes fi = None) infos ->
  extract' branch infos docs0 = Ok docs0.
Proof.
  induction 1 as [|fi rest Hk _ IH]; [done|].
  by rewrite (extract_skip _ _ _ _ _ _ _ _ _ Hk).
Qed.

(** X15: a branch whose archive downloads and opens but holds no member
    passing the filters counts as a success with no record: the loop returns
    the empty list with that branch, and the candidates after it are not
    tried. *)
Theorem read_repo_data_empty_archive_is_success (branch : string)
    (rest : list string) (last_err : option exn) (w : world)
    (resp : response) (infos : list file_info) :
  network w (url branch) timeout = Ok resp ->
  status_error resp = None ->
  zip_infolist (resp_content resp) = Ok infos ->
  Forall (fun fi => kept include_exts include_prefixes fi = None) infos ->
  loop' (branch :: rest) last_err w = (Ok ([], branch), w ++ [url branch]).
Proof.
  intros Hnet Hstatus Hzip Hnone.
  cbn [read_repo_loop]. unfold attempt, requests_get.
  rewrite Hnet, Hstatus, Hzip. simpl.
  by rewrite (extract_none_kept _ _ _ Hnone).
Qed.

(** What a successful attempt returns is the outcome of one extraction
    pass. *)
Lemma attempt_inv (branch : string) (w : world) (docs : list dict) :
  (attempt' branch w).1 = Ok docs ->
  exists infos, extract' branch infos [] = Ok docs.
Proof.
  unfold attempt, requests_get.
  destruct (network w _ timeout) as [resp|e]; [|done].
  destruct (status_error resp); [done|]. simpl.
  destruct (zip_infolist _) as [infos|e]; [|done]. simpl. by exists infos.
Qed.

(** The provenance fields of the records [read_repo_data] returns. *)
Lemma read_repo_data_fields (w : world) (docs : list dict) (b : string) :
  (read_repo_data network zip_infolist frontmatter_loads repo_owner
     repo_name branches include_exts include_prefixes timeout w).1
  = Ok (docs, b) ->
  Forall (fun d : dict =>
    d !! "branch" = Some (VStr b) /\
    d !! "repo_owner" = Some (VStr repo_owner) /\
    d !! "repo_name" = Some (VStr repo_name) /\
    (exists s, d !! "path" = Some (VStr s)) /\
    (exists s, d !! "filename" = Some (VStr s)) /\
    (exists s, d !! "content" = Some (VStr s))) docs.
Proof.
  unfold read_repo_data. intros Hrun.
  pose proof (read_repo_loop_spec network zip_infolist frontmatter_loads
                repo_owner repo_name branches include_exts include_prefixes
                timeout branches None w) as Hspec.
  destruct (loop' branches None w) as [[[docs' b']|e] w']; [|done].
  simpl in Hrun. injection Hrun as -> ->.
  destruct Hspec as (pre & post & errs & _ & _ & Hok & _).
  apply attempt_inv in Hok as [infos Hext].
  destruct (extract_inv _ _ _ _ _ _ _ _ _ Hext) as (new & -> & Hnew).
  simpl. eapply Forall2_Forall_r; [exact Hnew|].
  apply Forall_forall. intros m _ d (raw & p & _ & _ & ->).
  unfold make_record. repeat split; try by simplify_map_eq.
  - eexists. by simplify_map_eq.
  - eexists. by simplify_map_eq.
  - eexists. by simplify_map_eq.
Qed.
End ReadRepoMore.

Lemma read_repo_data_empty_archive_is_success_witness :
  read_repo_loop Demo.network Demo.zip_infolist Demo.frontmatter_loads
    "ethereum" "EIPs" ["master"; "main"] Demo.exts ["docs/"] 60
    ("master" :: ["main"]) None []
  = (Ok ([], "master"), [] ++ [branch_url "ethereum" "EIPs" "master"]).
Proof.
  apply (read_repo_data_empty_archive_is_success Demo.network
           Demo.zip_infolist Demo.frontmatter_loads "ethereum" "EIPs"
           ["master"; "main"] Demo.exts ["docs/"] 60 "master" ["main"] None []
           {| status_error := None; resp_content := "zip-master" |}
           Demo.master_members).
  - reflexivity.
  - reflexivity.
  - reflexivity.
  - repeat constructor.
Defined.

(** ** From the download to the index *)

Lemma seq_lookup_all (docs : list dict) :
  Forall2 (fun (l : loc) (d : dict) => docs !! l = Some d)
    (seq 0 (List.length docs)) docs.
Proof.
  apply Forall2_same_length_lookup_2.
  - by rewrite length_seq.
  - intros i l d Hl Hd. apply lookup_seq in Hl as [-> _]. done.
Qed.

Lemma sliding_window_inv (text : value) (size step : Z) (chs : list dict) :
  sliding_window text size step = Ok chs ->
  exists offs, chs = chunk_at text size <$> offs.
Proof.
  unfold sliding_window. destruct ((size <=? 0) || (step <=? 0)); [done|].
  destruct (py_len text) as [n|e]; [|done]. simpl. intros [= <-].
  rewrite sliding_window_loop_emitted. by eexists.
Qed.

Lemma chunk_documents_loop_inv (docs : list loc) (ds : list dict)
    (size step : Z) (h : store) :
  Forall2 (fun l d => h !! l = Some d) docs ds ->
  forall chunks ext c h',
    chunk_documents_loop docs size step chunks (h ++ ext) = (Ok c, h') ->
    exists chss,
      Forall2 (fun d chs => sliding_window (body d) size step = Ok chs)
        ds chss /\
      c = chunks ++ concat (zip_with record_chunks ds chss).
Proof.
  induction 1 as [|doc d docs ds Hd _ IH]; intros chunks ext c h'.
  - simpl. intros [= <- <-]. exists []. by rewrite app_nil_r.
  - rewrite (chunk_documents_loop_step _ d) by by apply lookup_app_l_Some.
    destruct (sliding_window (body d) size step) as [chs|e] eqn:Hsw; [|done].
    rewrite <- app_assoc. intros Hrest.
    destruct (IH _ _ _ _ Hrest) as (chss & Hchss & ->).
    exists (chs :: chss). split; [by constructor|].
    simpl. by rewrite <- !app_assoc.
Qed.

Section IndexDataProps.
Variable network : world -> string -> Z -> result response.
Variable zip_infolist : string -> result (list file_info).
Variable frontmatter_loads : string -> result post.
Context {Index : Type}.
Variable index_fit : list string -> list dict -> result Index.
Variables repo_owner repo_name : string.
Variable branches : list string.

Local Abbreviation read' :=
  (read_repo_data network zip_infolist frontmatter_loads repo_owner
     repo_name branches [".md"; ".mdx"] ["EIPS/"] 60).
Local Abbreviation index_data' :=
  (index_data network zip_infolist frontmatter_loads index_fit repo_owner
     repo_name branches).

(** X16: whatever [index_data] fits the index on, chunked or not, every
    record carries the branch that [index_data] returns, the repository
    owner and name, and a path, a file name and a content. *)
Theorem index_data_records_carry_provenance (chunk : bool)
    (chunking_params : option (gmap string Z)) (w : world)
    (index : Index) (b : string) :
  (index_data' chunk chunking_params w).1 = Ok (index, b) ->
  exists recs,
    index_fit ["content"; "path"; "filename"] recs = Ok index /\
    Forall (fun r : dict =>
      r !! "branch" = Some (VStr b) /\
      r !! "repo_owner" = Some (VStr repo_owner) /\
      r !! "repo_name" = Some (VStr repo_name) /\
      is_Some (r !! "path") /\ is_Some (r !! "filename") /\
      is_Some (r !! "content")) recs.
Proof.
  unfold index_data.
  pose proof (read_repo_data_fields network zip_infolist frontmatter_loads
                repo_owner repo_name branches [".md"; ".mdx"] ["EIPS/"] 60 w)
    as Hfields.
  destruct (read' w) as [[[docs b']|e] w']; [|done].
  specialize (Hfields docs b' eq_refl). simpl.
  destruct chunk.
  - unfold chunk_documents_kwargs.
    destruct (decide _) as [_|_]; [|done].
    set (size := default 2000 _). set (step := default 1000 _).
    unfold chunk_documents.
    destruct (chunk_documents_loop _ size step [] docs) as [[chunks|e] h']
      eqn:Hrun; [|done].
    simpl. destruct (index_fit _ chunks) as [i|e] eqn:Hfit; [|done].
    simpl. intros [= -> ->]. exists chunks. split; [done|].
    pose proof (chunk_documents_loop_inv _ _ size step docs
                  (seq_lookup_all docs) [] [] chunks h') as Hinv.
    rewrite app_nil_r in Hinv.
    destruct (Hinv Hrun) as (chss & Hchss & ->). simpl.
    clear Hrun Hinv Hfit. revert Hfields.
    induction Hchss as [|d chs ds chss Hsw _ IH]; intros Hfields; simpl.
    + constructor.
    + apply Forall_cons_1 in Hfields as [Hd Hds].
      apply Forall_app. split; [|by apply IH].
      destruct Hd as (Hb & Ho & Hn & [p Hp] & [f Hf] & _).
      destruct (sliding_window_inv _ _ _ _ Hsw) as [offs ->].
      unfold record_chunks. rewrite Forall_fmap, Forall_fmap.
      apply Forall_forall. intros j _. simpl.
      repeat split; try by apply dict_update_field.
      * exists (VStr p). by apply dict_update_field.
      * exists (VStr f). by apply dict_update_field.
      * rewrite dict_update_content, chunk_at_content. by eexists.
  - simpl. destruct (index_fit _ docs) as [i|e] eqn:Hfit; [|done].
    simpl. intros [= -> ->]. exists docs. split; [done|].
    eapply Forall_impl; [exact Hfields|]. simpl.
    intros d (? & ? & ? & [? ->] & [? ->] & [? ->]). eauto 10.
Qed.

(** X17: with chunking on and no parameters given, the chunking stage
    cannot raise on what [read_repo_data] returns (every body is a string
    and the defaults 2000 and 1000 are valid): [index_data] fits the index
    on the chunks and returns the fetched branch, or raises what the index
    raises. *)
Theorem index_data_default_chunking (w : world) (docs : list dict)
    (b : string) :
  (read' w).1 = Ok (docs, b) ->
  exists chunks,
    (chunk_documents (seq 0 (List.length docs)) 2000 1000 docs).1
    = Ok chunks /\
    (index_data' true None w).1
    = rbind (index_fit ["content"; "path"; "filename"] chunks)
        (fun index => Ok (index, b)).
Proof.
  intros Hread.
  pose proof (read_repo_data_fields network zip_infolist frontmatter_loads
                repo_owner repo_name branches [".md"; ".mdx"] ["EIPS/"] 60 w
                docs b Hread) as Hfields.
  assert (exists chss,
    Forall2 (fun d chs => sliding_window (body d) 2000 1000 = Ok chs)
      docs chss) as [chss Hchss].
  { clear Hread. induction Hfields as [|d ds Hd _ [chss IH]].
    - by exists [].
    - destruct Hd as (_ & _ & _ & _ & _ & [s Hs]).
      destruct (sliding_window_total (body d) 2000 1000 (str_len s))
        as (offs & _ & Hsw); [lia|lia|by unfold body; rewrite Hs|].
      eexists (_ :: chss). by constructor. }
  exists (concat (zip_with record_chunks docs chss)).
  pose proof (chunk_documents_run _ _ _ 2000 1000 docs
                (seq_lookup_all docs) Hchss) as Hrun.
  split; [by rewrite Hrun|].
  unfold index_data. destruct (read' w) as [[[docs' b']|e] w']; [|done].
  simpl in Hread. injection Hread as -> ->. simpl.
  unfold chunk_documents_kwargs.
  rewrite decide_True by done.
  change (default 2000 (_ !! "size")) with 2000.
  change (default 1000 (_ !! "step")) with 1000.
  by rewrite Hrun.
Qed.
End IndexDataProps.

Lemma index_data_records_carry_provenance_witness :
  exists recs,
    Demo.index_fit ["content"; "path"; "filename"] recs
    = Ok (record_chunks
            (make_record "ethereum" "EIPs" "master"
               "EIPs-master/EIPS/eip-20.md" "EIPS/eip-20.md"
               {| metadata := {[ "title" := VStr "Token Standard" ]};
                  post_content := "A standard interface for tokens." |})
            [ chunk_at (VStr "A standard interface for tokens.") 20 0;
              chunk_at (VStr "A standard interface for tokens.") 20 10;
              chunk_at (VStr "A standard interface for tokens.") 20 20 ]) /\
    Forall (fun r : dict =>
      r !! "branch" = Some (VStr "master") /\
      r !! "repo_owner" = Some (VStr "ethereum") /\
      r !! "repo_name" = Some (VStr "EIPs") /\
      is_Some (r !! "path") /\ is_Some (r !! "filename") /\
      is_Some (r !! "content")) recs.
Proof.
  apply (index_data_records_carry_provenance Demo.network Demo.zip_infolist
           Demo.frontmatter_loads Demo.index_fit "ethereum" "EIPs"
           ["main"; "master"] true
           (Some {[ "size" := 20; "step" := 10 ]}) []).
  vm_compute. reflexivity.
Defined.

Lemma index_data_default_chunking_witness :
  exists chunks,
    (chunk_documents (seq 0 (List.length Demo.master_docs)) 2000 1000
       Demo.master_docs).1 = Ok chunks /\
    (index_data Demo.network Demo.zip_infolist Demo.frontmatter_loads
       Demo.index_fit "ethereum" "EIPs" ["main"; "master"] true None []).1
    = rbind (Demo.index_fit ["content"; "path"; "filename"] chunks)
        (fun index => Ok (index, "master")).
Proof.
  apply (index_data_default_chunking Demo.network Demo.zip_infolist
           Demo.frontmatter_loads Demo.index_fit "ethereum" "EIPs"
           ["main"; "master"] [] Demo.master_docs "master").
  vm_compute. reflexivity.
Defined.

(* ================================================================== *)
(** * Branch fallback, stated on the collaborators *)

Section Fallback.
Variable network : world -> string -> Z -> result response.
Variable zip_infolist : string -> result (list file_info).
Variable frontmatter_loads : string -> result post.
Variables repo_owner repo_name : string.
Variable branches : list string.
Variables include_exts include_prefixes : list string.
Variable timeout : Z.

Local Abbreviation url := (branch_url repo_owner repo_name).
Local Abbreviation extract' :=
  (extract frontmatter_loads repo_owner repo_name include_exts
     include_prefixes).
Local Abbreviation attempt' :=
  (attempt network zip_infolist frontmatter_loads repo_owner repo_name
     include_exts include_prefixes timeout).
Local Abbreviation loop' :=
  (read_repo_loop network zip_infolist frontmatter_loads repo_owner
     repo_name branches include_exts include_prefixes timeout).
Local Abbreviation fails' :=
  (fetch_fails network zip_infolist frontmatter_loads repo_owner repo_name
     include_exts include_prefixes timeout).
Local Abbreviation succeeds' :=
  (fetch_succeeds network zip_infolist frontmatter_loads repo_owner repo_name
     include_exts include_prefixes timeout).
Local Abbreviation candidates_fail' :=
  (candidates_fail network zip_infolist frontmatter_loads repo_owner
     repo_name include_exts include_prefixes timeout).
Local Abbreviation parses' :=
  (member_parses frontmatter_loads include_exts include_prefixes).

(** The records of an archive are what the pass over it returns. *)
Lemma extract_archive_records (branch : string) (infos : list file_info)
    (docs0 new : list dict) :
  archive_records frontmatter_loads repo_owner repo_name include_exts
    include_prefixes branch infos new ->
  extract' branch infos docs0 = Ok (docs0 ++ new).
Proof.
  unfold archive_records. revert docs0 new.
  induction infos as [|fi rest IH]; intros docs0 new; cbn [omap list_omap].
  - intros Hnew. apply Forall2_nil_inv_l in Hnew as ->.
    simpl. by rewrite app_nil_r.
  - destruct (kept include_exts include_prefixes fi) as [path|] eqn:Hk.
    + intros Hnew. simpl in Hnew.
      apply Forall2_cons_inv_l in Hnew
        as (d & new' & (raw & p & Hraw & Hp & ->) & Hnew & ->).
      simpl in Hraw.
      rewrite (extract_kept _ _ _ _ _ _ _ _ _ path Hk), Hraw. simpl.
      rewrite Hp. simpl. rewrite (IH _ _ Hnew), <- app_assoc. done.
    + intros Hnew. simpl in Hnew.
      rewrite (extract_skip _ _ _ _ _ _ _ _ _ Hk). by apply IH.
Qed.

(** Members that all read and parse let the pass go through. *)
Lemma extract_members_parse (branch : string) (infos : list file_info)
    (docs0 : list dict) :
  Forall parses' infos -> exists docs, extract' branch infos docs0 = Ok docs.
Proof.
  intros Hall. revert docs0.
  induction Hall as [|fi rest Hfi _ IH]; intros docs0.
  - by exists docs0.
  - destruct (kept include_exts include_prefixes fi) as [path|] eqn:Hk.
    + rewrite (extract_kept _ _ _ _ _ _ _ _ _ path Hk).
      destruct Hfi as (raw & p & -> & Hp); [by rewrite Hk|].
      simpl. rewrite Hp. simpl. apply IH.
    + rewrite (extract_skip _ _ _ _ _ _ _ _ _ Hk). apply IH.
Qed.

Lemma attempt_fails (branch : string) (w : world) (e : exn) :
  fails' branch w e -> attempt' branch w = (Raise e, w ++ [url branch]).
Proof.
  unfold attempt, requests_get.
  intros [Hnet|resp Hnet Hst|resp Hnet Hst Hzip
          |resp pre fi post path Hnet Hst Hzip Hpre Hk Hbad].
  - by rewrite Hnet.
  - by rewrite Hnet, Hst.
  - by rewrite Hnet, Hst, Hzip.
  - rewrite Hnet, Hst, Hzip. simpl.
    destruct (extract_members_parse branch pre [] Hpre) as [docs1 Hdocs1].
    rewrite (extract_app _ _ _ _ _ _ _ _ _ _ Hdocs1).
    rewrite (extract_kept _ _ _ _ _ _ _ _ _ path Hk).
    destruct Hbad as [->|(raw & -> & Hp)]; [done|].
    simpl. by rewrite Hp.
Qed.

Lemma attempt_succeeds (branch : string) (w : world) (docs : list dict) :
  succeeds' branch w docs -> attempt' branch w = (Ok docs, w ++ [url branch]).
Proof.
  unfold attempt, requests_get. intros [resp infos Hnet Hst Hzip Hrec].
  rewrite Hnet, Hst, Hzip. simpl.
  by rewrite (extract_archive_records _ _ [] _ Hrec).
Qed.

Lemma succeeds_branch (branch : string) (w : world) (docs : list dict) :
  succeeds' branch w docs ->
  Forall (fun d : dict => d !! "branch" = Some (VStr branch)) docs.
Proof.
  intros [resp infos _ _ _ Hrec]. unfold archive_records in Hrec.
  eapply Forall2_Forall_r; [exact Hrec|].
  apply Forall_forall. intros m _ d (raw & p & _ & _ & ->).
  unfold make_record. apply lookup_insert_eq.
Qed.

(** The loop skips a run of failing candidates, keeping the last error. *)
Lemma read_repo_loop_skips (pre rest : list string) (errs : list exn)
    (last_err : option exn) (w : world) :
  candidates_fail' pre errs w ->
  loop' (pre ++ rest) last_err w
  = loop' rest (match last errs with Some e => Some e | None => last_err end)
      (w ++ (url <$> pre)).
Proof.
  revert errs last_err w.
  induction pre as [|b pre IH]; intros [|e errs] last_err w; try done.
  - intros _. simpl. by rewrite app_nil_r.
  - intros [Hb Hpre]. rewrite <- app_comm_cons. cbn [read_repo_loop].
    rewrite (attempt_fails _ _ _ Hb), (IH _ _ _ Hpre).
    rewrite fmap_cons, <- app_assoc. simpl. f_equal.
    destruct errs as [|e0 errs]; [done|].
    change (last (e :: e0 :: errs)) with (last (e0 :: errs)).
    destruct (last (e0 :: errs)) eqn:Hlast; [done|].
    by apply last_None in Hlast.
Qed.

(** C8: [read_repo_data] fetches the candidate branches in order.  As
    long as the fetch of a candidate fails (the request raises, the reply
    has an error status, the archive does not open, or a kept member cannot
    be read or parsed) it goes on to the next.  At the first candidate whose
    fetch succeeds it returns that archive's records with that branch, every
    record carrying the branch, and requests nothing further.  When every
    candidate has failed it raises a [RuntimeError] that names the
    candidates and the error of the last one. *)
Theorem read_repo_data_branch_fallback (w : world) (pre : list string)
    (errs : list exn) :
  candidates_fail' pre errs w ->
  (forall b post docs,
     branches = pre ++ b :: post ->
     succeeds' b (w ++ (url <$> pre)) docs ->
     read_repo_data network zip_infolist frontmatter_loads repo_owner
       repo_name branches include_exts include_prefixes timeout w
     = (Ok (docs, b), w ++ (url <$> pre) ++ [url b]) /\
     Forall (fun d : dict => d !! "branch" = Some (VStr b)) docs) /\
  (branches = pre ->
   read_repo_data network zip_infolist frontmatter_loads repo_owner
     repo_name branches include_exts include_prefixes timeout w
   = (Raise (RuntimeError branches (last errs)),
      w ++ (url <$> branches))).
Proof.
  intros Hpre. split.
  - intros b post docs Hb Hok. split; [|by eapply succeeds_branch].
    unfold read_repo_data. rewrite Hb at 2.
    rewrite (read_repo_loop_skips _ _ _ _ _ Hpre).
    cbn [read_repo_loop]. rewrite (attempt_succeeds _ _ _ Hok).
    by rewrite <- app_assoc.
  - intros Hb. unfold read_repo_data.
    rewrite <- (app_nil_r branches) at 2. rewrite Hb at 2.
    rewrite (read_repo_loop_skips _ _ _ _ _ Hpre). simpl.
    rewrite Hb. by destruct (last errs).
Qed.
End Fallback.

Lemma read_repo_data_branch_fallback_witness :
  read_repo_data Demo.network Demo.zip_infolist Demo.frontmatter_loads
    "ethereum" "EIPs" ["gh-pages"; "main"; "master"] Demo.exts Demo.prefixes
    60 []
  = (Ok (Demo.master_docs, "master"),
     [] ++ (branch_url "ethereum" "EIPs" <$> ["gh-pages"; "main"])
        ++ [branch_url "ethereum" "EIPs" "master"]) /\
  Forall (fun d : dict => d !! "branch" = Some (VStr "master"))
    Demo.master_docs.
Proof.
  refine (proj1 (read_repo_data_branch_fallback Demo.network
                   Demo.zip_infolist Demo.frontmatter_loads "ethereum" "EIPs"
                   ["gh-pages"; "main"; "master"] Demo.exts Demo.prefixes 60
                   [] ["gh-pages"; "main"]
                   [External "HTTPError" "404 Client Error";
                    External "ScannerError"
                      "mapping values are not allowed here"] _)
            "master" [] Demo.master_docs eq_refl _).
  - split; [|split; [|exact I]].
    + apply (fails_status _ _ _ _ _ _ _ _ _ _ _
               {| status_error := Some (External "HTTPError" "404 Client Error");
                  resp_content := "" |}); reflexivity.
    + apply (fails_member _ _ _ _ _ _ _ _ _ _ _
               {| status_error := None; resp_content := "zip-main" |}
               [ {| filename := "EIPs-main/EIPS/eip-1.md";
                    file_read := Ok "eip-1" |} ]
               {| filename := "EIPs-main/EIPS/eip-2.md";
                  file_read := Ok "broken" |}
               [ {| filename := "EIPs-main/EIPS/eip-20.md";
                    file_read := Ok "eip-20" |} ]
               "EIPS/eip-2.md").
      * reflexivity.
      * reflexivity.
      * reflexivity.
      * constructor; [|constructor]. intros _.
        exists "eip-1",
          {| metadata := {[ "title" := VStr "EIP Purpose and Guidelines" ]};
             post_content := "What is an EIP?" |}.
        split; reflexivity.
      * reflexivity.
      * right. exists "broken". split; reflexivity.
  - apply (succeeds _ _ _ _ _ _ _ _ _ _ _
             {| status_error := None; resp_content := "zip-master" |}
             Demo.master_members).
    + reflexivity.
    + reflexivity.
    + reflexivity.
    + unfold archive_records, Demo.master_docs. simpl.
      constructor; [|constructor].
      exists "eip-20",
        {| metadata := {[ "title" := VStr "Token Standard" ]};
           post_content := "A standard interface for tokens." |}.
      repeat split; reflexivity.
Defined.

(** When no candidate can be fetched, the error names the candidates and
    the cause of the last failure: here a missing branch, then an archive
    with a broken file. *)
Example read_repo_data_all_fail_example :
  read_repo_data Demo.network Demo.zip_infolist Demo.frontmatter_loads
    "ethereum" "EIPs" ["gh-pages"; "main"] Demo.exts Demo.prefixes 60 []
  = (Raise (RuntimeError ["gh-pages"; "main"]
              (Some (External "ScannerError"
                       "mapping values are not allowed here"))),
     [branch_url "ethereum" "EIPs" "gh-pages";
      branch_url "ethereum" "EIPs" "main"]).
Proof. vm_compute. reflexivity. Qed.

(* ================================================================== *)
(** * Metadata and order for records without a start field *)

(** X18: for valid [size] and [step] and records that have no ["start"]
    field of their own and a sequence as body, the output is the
    concatenation, in record order, of one group of chunks per record; each
    chunk of a group keeps every field of its record other than ["content"]
    unchanged; and the starts within a group are strictly increasing
    offsets. *)
Theorem chunk_documents_keeps_metadata_and_order (docs : list loc)
    (ds : list dict) (size step : Z) (h : store) :
  0 < size -> 0 < step ->
  Forall2 (fun l d => h !! l = Some d) docs ds ->
  Forall (fun d => (exists n, py_len (body d) = Ok n) /\
                   d !! "start" = None) ds ->
  exists groups : list (list dict),
    (chunk_documents docs size step h).1 = Ok (concat groups) /\
    Forall2 (fun (d : dict) (g : list dict) =>
      (exists chs, sliding_window (body d) size step = Ok chs /\
                   g = record_chunks d chs) /\
      (forall c k v, c ∈ g -> k <> "content" -> d !! k = Some v ->
                     c !! k = Some v) /\
      (exists offs, StronglySorted Z.lt offs /\
         (fun c : dict => c !! "start") <$> g
         = (fun j => Some (VInt j)) <$> offs)) ds groups.
Proof.
  intros Hsize Hstep Hdocs Hds.
  destruct (chunk_documents_preserves docs ds size step h Hsize Hstep Hdocs)
    as (groups & Hrun & Hgroups).
  { eapply Forall_impl; [exact Hds|]. by intros d [? _]. }
  exists groups. split; [done|]. clear Hrun Hdocs.
  induction Hgroups as [|d g ds groups (Hg & Hkeep & Hstart) _ IH].
  - constructor.
  - apply Forall_cons_1 in Hds as [[_ Hnone] Hds].
    constructor; [|by apply IH].
    split; [done|]. split; [done|]. by apply Hstart.
Qed.

Lemma chunk_documents_keeps_metadata_and_order_witness :
  exists groups : list (list dict),
    (chunk_documents [0%nat; 1%nat] 4 3
       [ {[ "content" := VStr "0123456789"; "path" := VStr "a.md" ]};
         {[ "content" := VStr "abcdef"; "path" := VStr "b.md";
            "title" := VStr "B" ]} ]).1
    = Ok (concat groups) /\
    Forall2 (fun (d : dict) (g : list dict) =>
      (exists chs, sliding_window (body d) 4 3 = Ok chs /\
                   g = record_chunks d chs) /\
      (forall c k v, c ∈ g -> k <> "content" -> d !! k = Some v ->
                     c !! k = Some v) /\
      (exists offs, StronglySorted Z.lt offs /\
         (fun c : dict => c !! "start") <$> g
         = (fun j => Some (VInt j)) <$> offs))
      [ {[ "content" := VStr "0123456789"; "path" := VStr "a.md" ]};
        {[ "content" := VStr "abcdef"; "path" := VStr "b.md";
           "title" := VStr "B" ]} ] groups.
Proof.
  apply (chunk_documents_keeps_metadata_and_order [0%nat; 1%nat]
           [ {[ "content" := VStr "0123456789"; "path" := VStr "a.md" ]};
             {[ "content" := VStr "abcdef"; "path" := VStr "b.md";
                "title" := VStr "B" ]} ] 4 3).
  - lia.
  - lia.
  - repeat constructor.
  - repeat constructor.
    + exists 10. reflexivity.
    + exists 6. reflexivity.
Defined.
